(** * Priority-based context merging: src/core/context.py

    A shallow embedding of [ContextManager] and of the Python objects it
    works on.  Python dictionaries are mutable objects that the code shares
    between the fragments and the merged view ([target[key] = value] stores a
    reference, not a copy), so dictionaries live in an explicit object heap
    and values refer to them by address. *)

From stdpp Require Import base option numbers list strings sorting.

Local Open Scope string_scope.
Local Open Scope list_scope.
Local Open Scope nat_scope.
#[local] Set Warnings "-register-all,-clear-no-such-hyp".

(** ** Python values and the object heap *)

Abbreviation loc := nat.

(** The values a context can hold.  Only [isinstance(v, dict)] is ever
    tested by the code, so every other Python scalar behaves like one of the
    scalar constructors below.  A dictionary value is the address of a
    dictionary object. *)
Inductive value : Type :=
| VNone : value
| VBool : bool → value
| VInt : Z → value
| VStr : string → value
| VList : list value → value
| VDict : loc → value.

(** A dictionary object: string keys in insertion order, as [dict] keeps
    them and as [items()] yields them. *)
Abbreviation dict := (list (string * value)).

(** The object heap: the dictionary objects by address. *)
Abbreviation heap := (list (list (string * value))).

Fixpoint dict_get (k : string) (d : dict) : option value :=
  match d with
  | [] => None
  | (k', v) :: d' => if String.eqb k k' then Some v else dict_get k d'
  end.

(** [d[k] = v]: an existing key keeps its position, a new key goes last. *)
Fixpoint dict_set (k : string) (v : value) (d : dict) : dict :=
  match d with
  | [] => [(k, v)]
  | (k', v') :: d' =>
      if String.eqb k k' then (k', v) :: d' else (k', v') :: dict_set k v d'
  end.

Definition isinstance_dict (v : value) : bool :=
  match v with VDict _ => true | _ => false end.

(** A fresh dictionary object; its address is the next free one. *)
Definition alloc (d : dict) (h : heap) : heap * loc := (h ++ [d], length h).

(** The exceptions the modelled code can raise or meet. *)
Inductive exn : Type :=
| KeyError : string → exn
| TypeError : exn
| FileNotFoundError : string → exn
| ValueError : string → exn
| ValidationError : string → exn
| ParserError : string → exn
| RuntimeError : string → exn.

Inductive outcome (A : Type) : Type :=
| Ok : A → outcome A
| Raise : exn → outcome A.
Arguments Ok {A} _.
Arguments Raise {A} _.

(** [str(e)] *)
Definition exn_str (e : exn) : string :=
  match e with
  | KeyError k => "'" +:+ k +:+ "'"
  | TypeError => "object is not subscriptable"
  | FileNotFoundError m | ValueError m | ValidationError m | ParserError m
  | RuntimeError m => m
  end.

(** The class of an exception, which is what an [except] clause or
    [pytest.raises] tells apart. *)
Inductive exn_kind : Type :=
| KKeyError | KTypeError | KFileNotFoundError | KValueError
| KValidationError | KParserError | KRuntimeError.

Definition kind_of (e : exn) : exn_kind :=
  match e with
  | KeyError _ => KKeyError
  | TypeError => KTypeError
  | FileNotFoundError _ => KFileNotFoundError
  | ValueError _ => KValueError
  | ValidationError _ => KValidationError
  | ParserError _ => KParserError
  | RuntimeError _ => KRuntimeError
  end.

(** ** The data model *)

Record ContextSource : Type := mkContextSource {
  name : string;
  content : loc;
  priority : Z;
  source_type : string;
  metadata : loc
}.

Record ContextManager : Type := mkContextManager {
  sources : list ContextSource;
  context : loc
}.

(** A loop body run over a list, threading the state and stopping at the
    first failure. *)
Fixpoint for_each {A S : Type} (body : S → A → option S) (xs : list A) (s : S)
  : option S :=
  match xs with
  | [] => Some s
  | x :: xs' =>
      match body s x with
      | Some s' => for_each body xs' s'
      | None => None
      end
  end.

(** A [for] loop over a list whose body works on the heap and may raise:
    the loop stops at the first exception, with the heap as the body left
    it. *)
Fixpoint for_in {A : Type} (body : heap → A → option (heap * outcome unit))
    (xs : list A) (h : heap) : option (heap * outcome unit) :=
  match xs with
  | [] => Some (h, Ok tt)
  | x :: xs' =>
      match body h x with
      | Some (h', Ok _) => for_in body xs' h'
      | Some (h', Raise e) => Some (h', Raise e)
      | None => None
      end
  end.

(** [for key, value in source.items(): body]: the loop runs over a view of
    the dictionary object, not over a copy.  Each time the loop asks for
    the next item, the iterator first compares the size of the dictionary
    with the size it had when the loop started and raises [RuntimeError]
    when they differ, also when no item is left; otherwise it yields the
    item that the dictionary holds at the next position at that moment.
    [size] is the size at the start and [remaining] the number of items not
    yet yielded, so the next position is [size - remaining], which is
    within the dictionary whenever the sizes agree. *)
Fixpoint for_items
    (body : heap → string * value → option (heap * outcome unit))
    (source : loc) (size remaining : nat) (h : heap)
  : option (heap * outcome unit) :=
  match h !! source with
  | None => None
  | Some d =>
      if negb (length d =? size)
      then Some (h, Raise (RuntimeError
                             "dictionary changed size during iteration"))
      else
        match remaining with
        | 0 => Some (h, Ok tt)
        | S remaining' =>
            match d !! (size - remaining) with
            | None => Some (h, Ok tt)
            | Some item =>
                match body h item with
                | Some (h', Ok _) => for_items body source size remaining' h'
                | Some (h', Raise e) => Some (h', Raise e)
                | None => None
                end
            end
        end
  end.

(** ** The operations *)

(** [ContextManager.__init__] *)
Definition init (h : heap) : heap * ContextManager :=
  let '(h1, c) := alloc [] h in
  (h1, {| sources := []; context := c |}).

(** [ContextManager.add_source].  [ContextSource] is a pydantic model whose
    [content] field is declared [Dict[str, Any]]: a value that is not a
    dictionary is refused with a validation error, and the values inside an
    accepted dictionary, nested dictionaries included, are stored as they
    are, by reference.  (Validation rebuilds the outermost dictionary; in
    the stores considered below nothing else refers to the outermost
    dictionary of a fragment and no operation writes to it, so the fragment
    simply keeps the address it is given.)  A missing [metadata] is a fresh
    empty dictionary.  The cached [self.context] is not touched. *)
Definition add_source (name : string) (content : value) (priority : Z)
    (source_type : string) (metadata : option loc)
    (h : heap) (self : ContextManager) : outcome (heap * ContextManager) :=
  let '(h1, md) :=
    match metadata with
    | None => alloc [] h
    | Some m => (h, m)
    end in
  match content with
  | VDict c =>
      Ok (h1, {| sources := sources self ++
                   [{| name := name; content := c; priority := priority;
                       source_type := source_type; metadata := md |}];
                 context := context self |})
  | _ => Raise (ValidationError "content: Input should be a valid dictionary")
  end.

(** The body of the loop of [_deep_merge] for one item of [source];
    [rec] is the recursive call, and [target[key]] is read when the item is
    handled. *)
Definition merge_item (rec : loc → loc → heap → option (heap * outcome unit))
    (target : loc) (h : heap) (item : string * value)
  : option (heap * outcome unit) :=
  let '(key, value) := item in
  match h !! target with
  | None => None
  | Some tgt =>
      match dict_get key tgt, value with
      | Some (VDict t'), VDict s' => rec t' s' h
      | _, _ => Some (<[target := dict_set key value tgt]> h, Ok tt)
      end
  end.

(** [ContextManager._deep_merge].  The recursion is bounded by [fuel], the
    depth the interpreter allows; [None] is the recursion limit being hit
    (or a dangling address, which a Python heap does not have).  The loop
    runs over the view [source.items()], so it raises [RuntimeError] when a
    write of the loop (to [target], or below it in a recursive call) has
    added a key to the very dictionary that is being read.  An exception
    leaves the heap with the writes made so far. *)
Fixpoint _deep_merge (fuel : nat) (target source : loc) (h : heap)
  : option (heap * outcome unit) :=
  match fuel with
  | 0 => None
  | S fuel' =>
      match h !! source with
      | None => None
      | Some items =>
          for_items (merge_item (_deep_merge fuel') target) source
                    (length items) (length items) h
      end
  end.

(** [sorted(self.sources, key=lambda x: x.priority, reverse=True)]:
    descending priority, and stable, so fragments of equal priority keep the
    order in which they were added. *)
Fixpoint insert_desc (x : ContextSource) (l : list ContextSource)
  : list ContextSource :=
  match l with
  | [] => [x]
  | y :: l' =>
      if (priority y <=? priority x)%Z then x :: l else y :: insert_desc x l'
  end.

Definition sorted_sources (l : list ContextSource) : list ContextSource :=
  foldr insert_desc [] l.

(** [ContextManager.merge_contexts]: a fresh accumulator, every fragment
    merged into it in sorted order, the result stored in [self.context] and
    returned.  When a merge raises, [self.context] is not assigned. *)
Definition merge_contexts (fuel : nat) (h : heap) (self : ContextManager)
  : option (heap * ContextManager * outcome loc) :=
  let '(h1, merged) := alloc [] h in
  match for_in (λ h src, _deep_merge fuel merged (content src) h)
               (sorted_sources (sources self)) h1 with
  | None => None
  | Some (h2, Ok _) =>
      Some (h2, {| sources := sources self; context := merged |}, Ok merged)
  | Some (h2, Raise e) => Some (h2, self, Raise e)
  end.

Definition dot : Ascii.ascii := Ascii.ascii_of_nat 46.

(** [key.split('.')] *)
Fixpoint split_dot (s : string) : list string :=
  match s with
  | EmptyString => [EmptyString]
  | String c rest =>
      match split_dot rest with
      | seg :: segs =>
          if Ascii.eqb c dot then EmptyString :: seg :: segs
          else String c seg :: segs
      | [] => [String c EmptyString]
      end
  end.

(** [value[k]] for a string [k]: a dictionary looks the key up, anything
    else (list, string, number, boolean, [None]) raises [TypeError]. *)
Definition subscript (h : heap) (v : value) (k : string) : outcome value :=
  match v with
  | VDict l =>
      match h !! l with
      | Some d =>
          match dict_get k d with
          | Some v' => Ok v'
          | None => Raise (KeyError k)
          end
      | None => Raise (KeyError k)
      end
  | _ => Raise TypeError
  end.

(** [for k in keys: value = value[k]] *)
Fixpoint walk (h : heap) (keys : list string) (v : value) : outcome value :=
  match keys with
  | [] => Ok v
  | k :: keys' =>
      match subscript h v k with
      | Ok v' => walk h keys' v'
      | Raise e => Raise e
      end
  end.

(** [not self.context] *)
Definition context_is_empty (h : heap) (self : ContextManager) : bool :=
  match h !! context self with
  | Some [] => true
  | _ => false
  end.

(** [ContextManager.get_context]; [key = None] is the omitted key.  The
    call of [merge_contexts] is outside the [try]: what it raises leaves
    [get_context]. *)
Definition get_context (fuel : nat) (key : option string) (default : value)
    (h : heap) (self : ContextManager)
  : option (heap * ContextManager * outcome value) :=
  match
    (if context_is_empty h self
     then match merge_contexts fuel h self with
          | Some (h', self', Ok _) => Some (h', self', Ok tt)
          | Some (h', self', Raise e) => Some (h', self', Raise e)
          | None => None
          end
     else Some (h, self, Ok tt))
  with
  | None => None
  | Some (h1, self1, Raise e) => Some (h1, self1, Raise e)
  | Some (h1, self1, Ok _) =>
      match key with
      | None => Some (h1, self1, Ok (VDict (context self1)))
      | Some key =>
          let keys := split_dot key in
          Some (h1, self1,
                match walk h1 keys (VDict (context self1)) with
                | Ok v => Ok v
                | Raise (KeyError _) | Raise TypeError => Ok default
                | Raise e => Raise e
                end)
      end
  end.

(** [ContextManager.validate_context] *)
Definition validate_context (schema : loc) (h : heap) (self : ContextManager)
  : bool := true.

(** Modelled from the spec: [ContextManager.remove_source], which
    examples/context_management.py calls and the class in
    src/core/context.py does not define.  It removes every fragment whose
    [name] exactly equals the argument, is a no-op on the fragment list when
    none matches, and invalidates the cached merged view (the cache of this
    class is [self.context], empty when there is none). *)
Definition remove_source (n : string) (h : heap) (self : ContextManager)
  : heap * ContextManager :=
  let '(h1, c) := alloc [] h in
  (h1, {| sources := filter (λ src, name src ≠ n) (sources self);
          context := c |}).

(** ** Loading from a file *)

(** What [load_from_file] asks of [pathlib], [open], [json] and [yaml].
    A loader reads and parses the file: it returns the parsed value, its
    dictionaries allocated in the heap, or the exception it raised. *)
Record filesystem : Type := mkFilesystem {
  path_exists : string → bool;
  path_suffix : string → string;
  path_name : string → string;
  path_absolute : string → string;
  json_load : string → heap → outcome (heap * value);
  yaml_safe_load : string → heap → outcome (heap * value)
}.

Definition ascii_lower (c : Ascii.ascii) : Ascii.ascii :=
  let n := Ascii.nat_of_ascii c in
  if ((65 <=? n) && (n <=? 90))%nat then Ascii.ascii_of_nat (n + 32) else c.

(** [str.lower] on ASCII text *)
Fixpoint str_lower (s : string) : string :=
  match s with
  | EmptyString => EmptyString
  | String c s' => String (ascii_lower c) (str_lower s')
  end.

Definition str_in (s : string) (l : list string) : bool :=
  existsb (String.eqb s) l.

(** [ContextManager.load_from_file].  Everything raised inside the [try]
    block, the [ValueError] for an unknown suffix included, is caught by
    [except Exception] and raised again as a [ValueError] that carries
    [str(e)]. *)
Definition load_from_file (fs : filesystem) (file_path : string)
    (priority : Z) (h : heap) (self : ContextManager)
  : outcome (heap * ContextManager) :=
  if negb (path_exists fs file_path) then
    Raise (FileNotFoundError ("Context file not found: " +:+ file_path))
  else
    let suffix := str_lower (path_suffix fs file_path) in
    let try_block : outcome (heap * ContextManager) :=
      match
        (if str_in suffix [".json"] then json_load fs file_path h
         else if str_in suffix [".yaml"; ".yml"]
              then yaml_safe_load fs file_path h
              else Raise (ValueError ("Unsupported file format: "
                                      +:+ path_suffix fs file_path)))
      with
      | Raise e => Raise e
      | Ok (h1, content) =>
          let '(h2, md) :=
            alloc [("path", VStr (path_absolute fs file_path))] h1 in
          add_source (path_name fs file_path) content priority "file"
                     (Some md) h2 self
      end in
    match try_block with
    | Ok r => Ok r
    | Raise e =>
        Raise (ValueError ("Failed to load context from " +:+ file_path
                           +:+ ": " +:+ exn_str e))
    end.

(** The parser [load_from_file] picks for a path, if any. *)
Definition selected_loader (fs : filesystem) (file_path : string)
  : option (heap → outcome (heap * value)) :=
  let suffix := str_lower (path_suffix fs file_path) in
  if str_in suffix [".json"] then Some (json_load fs file_path)
  else if str_in suffix [".yaml"; ".yml"]
       then Some (yaml_safe_load fs file_path)
       else None.

Definition load_error (file_path detail : string) : exn :=
  ValueError ("Failed to load context from " +:+ file_path +:+ ": "
              +:+ detail).

(** ** Literals and observation *)

(** A Python literal of nested dictionaries, lists and scalars, and the
    value of an object graph read back as such a literal. *)
Inductive tree : Type :=
| TNone : tree
| TBool : bool → tree
| TInt : Z → tree
| TStr : string → tree
| TList : list tree → tree
| TDict : list (string * tree) → tree.

(** The elements of a list display, left to right. *)
Fixpoint build_list (bld : tree → heap → heap * value) (ts : list tree)
    (h : heap) : heap * list value :=
  match ts with
  | [] => (h, [])
  | t :: ts' =>
      let '(h1, v) := bld t h in
      let '(h2, vs) := build_list bld ts' h1 in
      (h2, v :: vs)
  end.

(** The items of a dictionary display, left to right, into [d]. *)
Fixpoint build_items (bld : tree → heap → heap * value)
    (items : list (string * tree)) (h : heap) (d : dict) : heap * dict :=
  match items with
  | [] => (h, d)
  | (k, t) :: items' =>
      let '(h1, v) := bld t h in build_items bld items' h1 (dict_set k v d)
  end.

(** Evaluating a literal: every dictionary display makes a new object, the
    inner ones first. *)
Fixpoint build (t : tree) (h : heap) : heap * value :=
  match t with
  | TNone => (h, VNone)
  | TBool b => (h, VBool b)
  | TInt z => (h, VInt z)
  | TStr s => (h, VStr s)
  | TList ts =>
      let '(h', vs) := build_list build ts h in (h', VList vs)
  | TDict items =>
      let '(h', d) := build_items build items h [] in
      let '(h'', l) := alloc d h' in
      (h'', VDict l)
  end.

(** How deep the dictionaries of a literal nest. *)
Fixpoint depth (t : tree) : nat :=
  match t with
  | TList ts =>
      (fix go (ts : list tree) : nat :=
         match ts with
         | [] => 0
         | t :: ts' => depth t `max` go ts'
         end) ts
  | TDict items =>
      S ((fix go (items : list (string * tree)) : nat :=
            match items with
            | [] => 0
            | (_, t) :: items' => depth t `max` go items'
            end) items)
  | _ => 0
  end.

(** The value reachable from [v], to depth [fuel]. *)
Fixpoint reify (fuel : nat) (h : heap) (v : value) : option tree :=
  match fuel with
  | 0 => None
  | S fuel' =>
      match v with
      | VNone => Some TNone
      | VBool b => Some (TBool b)
      | VInt z => Some (TInt z)
      | VStr s => Some (TStr s)
      | VList vs => TList <$> mapM (reify fuel' h) vs
      | VDict l =>
          match h !! l with
          | None => None
          | Some d =>
              TDict <$> mapM (λ '(k, v'), pair k <$> reify fuel' h v') d
          end
      end
  end.

Fixpoint tree_get (k : string) (d : list (string * tree)) : option tree :=
  match d with
  | [] => None
  | (k', t) :: d' => if String.eqb k k' then Some t else tree_get k d'
  end.

(** Python's [==] on such values: lists compare element by element,
    dictionaries compare as mappings, whatever the order of their keys. *)
Fixpoint tree_eqb (a b : tree) : bool :=
  match a, b with
  | TNone, TNone => true
  | TBool x, TBool y => Bool.eqb x y
  | TInt x, TInt y => (x =? y)%Z
  | TStr x, TStr y => String.eqb x y
  | TList xs, TList ys =>
      (fix go (xs ys : list tree) : bool :=
         match xs, ys with
         | [], [] => true
         | x :: xs', y :: ys' => tree_eqb x y && go xs' ys'
         | _, _ => false
         end) xs ys
  | TDict d1, TDict d2 =>
      (length d1 =? length d2)%nat &&
      (fix all (d : list (string * tree)) : bool :=
         match d with
         | [] => true
         | (k, x) :: d' =>
             match tree_get k d2 with
             | Some y => tree_eqb x y
             | None => false
             end && all d'
         end) d1
  | _, _ => false
  end.

(** A session: calls made one after the other on one manager.  A call that
    raises leaves the manager as it was, and the heap with the writes made
    before the exception. *)
Definition session := (heap * ContextManager)%type.

Definition new_manager : session := init [].

(** [add_source(name, <literal>, priority)] *)
Definition add (n : string) (lit : tree) (p : Z) (s : session) : session :=
  let '(h, self) := s in
  let '(h1, v) := build lit h in
  match add_source n v p "unknown" None h1 self with
  | Ok s' => s'
  | Raise _ => (h1, self)
  end.

(** [merge_contexts()]: the session after the call and the dictionary it
    returned. *)
Definition merge (fuel : nat) (s : session)
  : option (session * outcome loc) :=
  let '(h, self) := s in
  match merge_contexts fuel h self with
  | Some (h', self', m) => Some ((h', self'), m)
  | None => None
  end.

Definition get (fuel : nat) (key : option string) (default : value)
    (s : session) : option (session * outcome value) :=
  let '(h, self) := s in
  match get_context fuel key default h self with
  | Some (h', self', r) => Some ((h', self'), r)
  | None => None
  end.

Definition remove (n : string) (s : session) : session :=
  let '(h, self) := s in remove_source n h self.

(** What a value looks like in a session. *)
Definition observe (s : session) (v : value) : option tree :=
  reify (S (length (fst s))) (fst s) v.

(** The stored content of the [i]-th fragment. *)
Definition fragment_content (s : session) (i : nat) : option tree :=
  match sources (snd s) !! i with
  | Some src => observe s (VDict (content src))
  | None => None
  end.

(** The calls a client makes on a manager, and a run of them. *)
Inductive call : Type :=
| CallAddSource (n : string) (lit : tree) (p : Z)
| CallMergeContexts
| CallGetContext (key : option string) (default : value)
| CallRemoveSource (n : string).

Definition do_call (fuel : nat) (c : call) (s : session) : option session :=
  match c with
  | CallAddSource n lit p => Some (add n lit p s)
  | CallMergeContexts => fst <$> merge fuel s
  | CallGetContext key default => fst <$> get fuel key default s
  | CallRemoveSource n => Some (remove n s)
  end.

Definition run (fuel : nat) (cs : list call) (s : session) : option session :=
  for_each (λ s c, do_call fuel c s) cs s.

Definition call_depth (c : call) : nat :=
  match c with
  | CallAddSource _ lit _ => depth lit
  | _ => 0
  end.

Definition script_depth (cs : list call) : nat :=
  foldr (λ c, max (call_depth c)) 0 cs.

(** ** Well-formed stores *)

(** When the contents the store is given are nested literals, every
    dictionary object sits at one nesting depth: [lvl] gives the depth of
    each object, a dictionary at depth [n] refers only to existing
    dictionaries at depth [n + 1], no object is deeper than [D], and a
    dictionary has each key once.  Every operation keeps this ([run_ok]),
    also when it makes two dictionaries share a nested one.  A client that
    builds contents which share a dictionary at two depths is outside of
    it: [shared_fragments] below is such a store. *)
Definition dict_ok (lvl : loc → nat) (size n : nat) (d : dict) : Prop :=
  NoDup d.*1 ∧ ∀ k l, (k, VDict l) ∈ d → l < size ∧ lvl l = S n.

Definition heap_ok (lvl : loc → nat) (D : nat) (h : heap) : Prop :=
  ∀ l d, h !! l = Some d → lvl l ≤ D ∧ dict_ok lvl (length h) (lvl l) d.

(** A well-formed fragment list: the heap is well formed and the content of
    every fragment is an existing dictionary of depth 0. *)
Definition store_ok (lvl : loc → nat) (D : nat) (h : heap)
    (self : ContextManager) : Prop :=
  heap_ok lvl D h ∧
  ∀ src, src ∈ sources self → content src < length h ∧ lvl (content src) = 0.

(** The same, as a test that can be run. *)
Fixpoint nodup_keysb (d : dict) : bool :=
  match d with
  | [] => true
  | (k, _) :: d' => negb (str_in k d'.*1) && nodup_keysb d'
  end.

Definition dict_okb (lvl : loc → nat) (size n : nat) (d : dict) : bool :=
  nodup_keysb d &&
  forallb (λ item : string * value,
             match item.2 with
             | VDict l => (l <? size) && (lvl l =? S n)
             | _ => true
             end) d.

Fixpoint heap_okb_from (lvl : loc → nat) (D size i : nat) (h : heap) : bool :=
  match h with
  | [] => true
  | d :: h' =>
      (lvl i <=? D) && dict_okb lvl size (lvl i) d &&
      heap_okb_from lvl D size (S i) h'
  end.

Definition store_okb (lvl : loc → nat) (D : nat) (h : heap)
    (self : ContextManager) : bool :=
  heap_okb_from lvl D (length h) 0 h &&
  forallb (λ src, (content src <? length h) && (lvl (content src) =? 0))
          (sources self).

(** The fragment binds [k] to [v] at the top of its content. *)
Definition binds (h : heap) (src : ContextSource) (k : string) (v : value)
  : Prop :=
  ∃ d, h !! content src = Some d ∧ dict_get k d = Some v.

(** The fragment has no key [k] at the top of its content. *)
Definition lacks (h : heap) (src : ContextSource) (k : string) : Prop :=
  ∃ d, h !! content src = Some d ∧ dict_get k d = None.

(** What the specification says a dotted path denotes: the value reached by
    indexing nested mappings segment by segment, and nothing when a step
    meets a value that is not a mapping or a key that is absent. *)
Fixpoint resolve (h : heap) (segs : list string) (v : value) : option value :=
  match segs with
  | [] => Some v
  | k :: segs' =>
      match v with
      | VDict l =>
          match h !! l with
          | Some d =>
              match dict_get k d with
              | Some v' => resolve h segs' v'
              | None => None
              end
          | None => None
          end
      | _ => None
      end
  end.

(** What a merge into [target] leaves behind: a well-formed heap with the
    same objects, in which only [target] and dictionaries nested deeper
    than it may have changed. *)
Definition merge_post (lvl : loc → nat) (D : nat) (target : loc)
  (h h' : heap) : Prop :=
  heap_ok lvl D h' ∧ length h' = length h ∧
  ∀ l, l ≠ target → lvl l ≤ lvl target → h' !! l = h !! l.

(** What the recursive calls at depth [n] are required to do. *)
Definition merges_at (lvl : loc → nat) (D : nat) (n : nat)
  (rec : loc → loc → heap → option (heap * outcome unit)) : Prop :=
  ∀ t s h, heap_ok lvl D h → t < length h → s < length h →
           lvl t = n → lvl s = n →
           ∃ h', rec t s h = Some (h', Ok tt) ∧ merge_post lvl D t h h'.

(** A session whose store is well formed, with no dictionary deeper than
    [D]. *)
Definition session_ok (D : nat) (s : session) : Prop :=
  ∃ lvl, store_ok lvl D s.1 s.2.

(** The depths once a new dictionary of depth [n] is made at address [r]. *)
Definition lvl_at (lvl : loc → nat) (r : loc) (n : nat) : loc → nat :=
  λ l, if l =? r then n else lvl l.

(** [h'] has the objects of [h], unchanged and at the same depths, and
    maybe more. *)
Definition extends (lvl : loc → nat) (h : heap) (lvl' : loc → nat)
    (h' : heap) : Prop :=
  length h ≤ length h' ∧
  ∀ l, l < length h → lvl' l = lvl l ∧ h' !! l = h !! l.

(** What evaluating a literal at depth [n] gives: a well-formed heap that
    extends the old one, and, when the literal is a dictionary, an existing
    dictionary of depth [n]. *)
Definition built_ok (D n : nat) (lvl : loc → nat) (h : heap)
    (r : heap * value) : Prop :=
  ∃ lvl', heap_ok lvl' D r.1 ∧ extends lvl h lvl' r.1 ∧
          ∀ c, r.2 = VDict c → c < length r.1 ∧ lvl' c = n.

(** The depths once a new top-level dictionary is made at address [r]. *)
Definition lvl_fresh (lvl : loc → nat) (r : loc) : loc → nat :=
  lvl_at lvl r 0.

(** ** The sessions the claims are read on *)

Notation "s |> f" := (f s) (at level 45, left associativity, only parsing).

Definition prio_A_then_B : session :=
  new_manager |> add "A" (TDict [("k", TStr "A")]) 10
              |> add "B" (TDict [("k", TStr "B")]) 1.

Definition prio_B_then_A : session :=
  new_manager |> add "B" (TDict [("k", TStr "B")]) 1
              |> add "A" (TDict [("k", TStr "A")]) 10.

(** The value of [merge_contexts()] as a literal, read when it returns. *)
Definition merged_view (fuel : nat) (s : session) : option tree :=
  match merge fuel s with
  | Some (s', Ok m) => observe s' (VDict m)
  | _ => None
  end.

Definition mapping_then_scalar : session :=
  new_manager |> add "source1" (TDict [("a", TDict [("b", TInt 1)])]) 0
              |> add "source2" (TDict [("a", TInt 5)]) 10.

Definition tie_A_then_B : session :=
  new_manager |> add "A" (TDict [("k", TStr "A")]) 5
              |> add "B" (TDict [("k", TStr "B")]) 5.

(** A tie at priority 5 and a third fragment of lower priority, added last
    or first. *)
Definition tie_then_lower : session :=
  new_manager |> add "A" (TDict [("k", TStr "A")]) 5
              |> add "B" (TDict [("k", TStr "B")]) 5
              |> add "C" (TDict [("k", TStr "C")]) 1.

Definition lower_then_tie : session :=
  new_manager |> add "C" (TDict [("k", TStr "C")]) 1
              |> add "A" (TDict [("k", TStr "A")]) 5
              |> add "B" (TDict [("k", TStr "B")]) 5.

Definition nested_hi_then_lo : session :=
  new_manager
    |> add "hi" (TDict [("app", TDict [("name", TStr "Y")])]) 10
    |> add "lo" (TDict [("app", TDict [("name", TStr "X");
                                       ("version", TStr "1.0")])]) 0.

Definition four_fragments : session :=
  new_manager
    |> add "S1" (TDict [("a", TDict [])]) 3
    |> add "S2" (TDict [("a", TDict [("k", TDict [("y", TInt 2)])])]) 2
    |> add "S3" (TDict [("a", TDict [("k", TInt 5)])]) 1
    |> add "S4" (TDict [("a", TDict [("k", TDict [("z", TInt 1)])])]) 0.

(** The heap of a client that has made s = {"k": {"new": 1}} (address 2),
    {"a": {"k": s}} (address 4) and {"a": s} (address 5), next to the empty
    [context] of a new manager (address 0): the two contents share [s]. *)
Definition shared_heap : heap :=
  [ [];
    [("new", VInt 1)];
    [("k", VDict 1)];
    [("k", VDict 2)];
    [("a", VDict 3)];
    [("a", VDict 2)] ].

(** [add_source("hi", {"a": {"k": s}}, priority=10)] and then
    [add_source("lo", {"a": s}, priority=0)] on a new manager. *)
Definition shared_fragments : outcome session :=
  match add_source "hi" (VDict 4) 10 "unknown" None
                   shared_heap (snd new_manager) with
  | Ok (h1, self1) => add_source "lo" (VDict 5) 0 "unknown" None h1 self1
  | Raise e => Raise e
  end.

Definition after_first_get : option (session * outcome value) :=
  new_manager |> add "a" (TDict [("k", TInt 1)]) 0 |> get 4 None VNone.

Definition theme_sources : session :=
  new_manager |> add "s" (TDict [("theme", TStr "dark")]) 0
              |> add "override" (TDict [("theme", TStr "light")]) 10.

Definition user_store : session :=
  new_manager
    |> add "test" (TDict [("user", TDict [("name", TStr "Test")]);
                          ("tags", TList [TInt 1; TInt 2])]) 1.

Definition one_key_store : session :=
  new_manager |> add "a" (TDict [("k", TInt 1)]) 0.

(** The stores of tests/core/test_context.py. *)
Definition test_low_high : session :=
  new_manager |> add "low_priority" (TDict [("key", TStr "low")]) 1
              |> add "high_priority" (TDict [("key", TStr "high")]) 10.

Definition test_user : session :=
  new_manager |> add "test" (TDict [("user", TDict [("name", TStr "Test")])]) 1.

(** A directory with a text file, a JSON file that does not parse and a
    JSON file that holds a list. *)
Definition fs_example : filesystem :=
  {| path_exists := λ p, str_in p ["notes.txt"; "bad.json"; "list.json"];
     path_suffix := λ p, if String.eqb p "notes.txt" then ".txt" else ".json";
     path_name := λ p, p;
     path_absolute := λ p, "/work/" +:+ p;
     json_load := λ p h,
       if String.eqb p "list.json" then Ok (h, VList [VInt 1; VInt 2])
       else Raise (ParserError "Expecting value: line 1 column 1 (char 0)");
     yaml_safe_load := λ p h, Raise (ParserError "could not parse") |}.

(** ** The top of the merged view *)

(** What [_deep_merge] makes of one key of [target]: nothing changes when
    [source] lacks the key; a dictionary of [target] stays in place when
    [source] has a dictionary too (the two are merged below); in every other
    case the value of [source] is bound. *)
Definition merged_binding (old new : option value) : option value :=
  match new with
  | None => old
  | Some v =>
      match old, v with
      | Some (VDict t), VDict _ => Some (VDict t)
      | _, _ => Some v
      end
  end.

(** The value a fragment has for [k] at the top of its content. *)
Definition top_binding (h : heap) (k : string) (src : ContextSource)
  : option value :=
  match h !! content src with
  | Some d => dict_get k d
  | None => None
  end.

(** The binding of [k] once the fragments [srcs] are merged, in that order,
    into an accumulator that binds [k] as [old]. *)
Definition merged_top (h : heap) (k : string) (old : option value)
    (srcs : list ContextSource) : option value :=
  foldl (λ o src, merged_binding o (top_binding h k src)) old srcs.

(** The fragment binds [k] to a dictionary at the top of its content. *)
Definition binds_dict (h : heap) (k : string) (src : ContextSource) : bool :=
  match top_binding h k src with
  | Some (VDict _) => true
  | _ => false
  end.

(** Descending priority. *)
Definition desc_sorted (l : list ContextSource) : Prop :=
  StronglySorted (λ x y, (priority y ≤ priority x)%Z) l.

Definition is_dict (o : option value) : bool :=
  match o with Some (VDict _) => true | _ => false end.

(** How many of the fragments bind [k] to a dictionary. *)
Definition count_dicts (h : heap) (k : string) (srcs : list ContextSource)
  : nat :=
  length (filter (λ src, binds_dict h k src = true) srcs).

(** A store whose fragment has a key with a dot in it. *)
Definition dotted_key_store : session :=
  new_manager |> add "flat" (TDict [("a.b", TInt 1); ("c", TInt 2)]) 0.

(** The string contains the character ".". *)
Fixpoint has_dot (s : string) : bool :=
  match s with
  | EmptyString => false
  | String c s' => Ascii.eqb c dot || has_dot s'
  end.

(** The same store once [merge_contexts] has filled the cache. *)
Definition dotted_key_cached : session :=
  match merge 1 dotted_key_store with
  | Some (s, _) => s
  | None => dotted_key_store
  end.

(** A heap in which the literal {"user": {"name": "Test"}} has been
    evaluated, at address 2, and not yet given to the manager. *)
Definition heap_with_literal : heap :=
  [[]; [("name", VStr "Test")]; [("user", VDict 1)]].

(** A directory with one JSON file, whose parser gives the dictionary at
    address 2 of [heap_with_literal]. *)
Definition fs_user : filesystem :=
  {| path_exists := λ p, String.eqb p "user.JSON";
     path_suffix := λ p, ".JSON";
     path_name := λ p, p;
     path_absolute := λ p, "/work/" +:+ p;
     json_load := λ p h, Ok (heap_with_literal, VDict 2);
     yaml_safe_load := λ p h, Raise (ParserError "could not parse") |}.

(** ** Agents: src/core/agent.py *)

Module Agent.

(** A function object, as far as [add_tool] looks at it: its name, its
    docstring and which function it is. *)
Record callable : Type := mkCallable {
  __name__ : string;
  __doc__ : option string;
  fn_id : nat
}.

(** A pydantic model class used as a schema, by the JSON schema its
    [schema()] method answers. *)
Record model_class : Type := mkModelClass { schema : tree }.

(** [class Tool(BaseModel)] *)
Record Tool : Type := mkTool {
  name : string;
  description : string;
  func : callable;
  input_schema : option model_class;
  output_schema : option model_class
}.

(** [@dataclass class Message] *)
Record Message : Type := mkMessage {
  role : string;
  content : string;
  metadata : option loc
}.

(** [class BaseAgent]; [tools] is a dictionary from names to tools, in
    insertion order, and [context] the address of a dictionary. *)
Record BaseAgent : Type := mkBaseAgent {
  agent_name : string;
  agent_description : string;
  tools : list (string * Tool);
  conversation : list Message;
  context : loc
}.

(** [self.tools.get(name)] *)
Fixpoint tools_get (n : string) (ts : list (string * Tool)) : option Tool :=
  match ts with
  | [] => None
  | (n', t) :: ts' => if String.eqb n n' then Some t else tools_get n ts'
  end.

(** [self.tools[name] = tool] *)
Fixpoint tools_set (n : string) (t : Tool) (ts : list (string * Tool))
  : list (string * Tool) :=
  match ts with
  | [] => [(n, t)]
  | (n', t') :: ts' =>
      if String.eqb n n' then (n', t) :: ts' else (n', t') :: tools_set n t ts'
  end.

(** [del self.tools[name]]; a dictionary has the key once. *)
Fixpoint tools_del (n : string) (ts : list (string * Tool))
  : list (string * Tool) :=
  match ts with
  | [] => []
  | (n', t') :: ts' =>
      if String.eqb n n' then tools_del n ts' else (n', t') :: tools_del n ts'
  end.

(** [BaseAgent.__init__] *)
Definition init (n d : string) (h : heap) : heap * BaseAgent :=
  let '(h1, c) := alloc [] h in
  (h1, {| agent_name := n; agent_description := d; tools := [];
          conversation := []; context := c |}).

(** What [add_tool] can be given: a [Tool], something callable, or anything
    else. *)
Inductive tool_arg : Type :=
| ATool (t : Tool)
| ACallable (f : callable)
| AOther.

(** [not s] for an optional string: [None] and the empty string. *)
Definition falsy (s : option string) : bool :=
  match s with
  | None | Some EmptyString => true
  | Some _ => false
  end.

(** [BaseAgent.add_tool] *)
Definition add_tool (tool : tool_arg) (n d : option string)
    (isch osch : option model_class) (self : BaseAgent) : outcome BaseAgent :=
  match tool with
  | ATool t =>
      Ok {| agent_name := agent_name self;
            agent_description := agent_description self;
            tools := tools_set (name t) t (tools self);
            conversation := conversation self; context := context self |}
  | ACallable f =>
      let n' := if falsy n then __name__ f else default "" n in
      let d' := if falsy d
                then (if falsy (__doc__ f) then "" else default "" (__doc__ f))
                else default "" d in
      Ok {| agent_name := agent_name self;
            agent_description := agent_description self;
            tools := tools_set n'
                       {| name := n'; description := d'; func := f;
                          input_schema := isch; output_schema := osch |}
                       (tools self);
            conversation := conversation self; context := context self |}
  | AOther =>
      Raise (ValueError "Tool must be either a Tool instance or a callable")
  end.

(** [BaseAgent.remove_tool] *)
Definition remove_tool (n : string) (self : BaseAgent) : BaseAgent * bool :=
  match tools_get n (tools self) with
  | Some _ =>
      ({| agent_name := agent_name self;
          agent_description := agent_description self;
          tools := tools_del n (tools self);
          conversation := conversation self; context := context self |},
       true)
  | None => (self, false)
  end.

(** [BaseAgent.get_tool] *)
Definition get_tool (n : string) (self : BaseAgent) : option Tool :=
  tools_get n (tools self).

Definition schema_or_none (c : option model_class) : tree :=
  match c with
  | Some m => schema m
  | None => TNone
  end.

(** [BaseAgent.list_tools] *)
Definition list_tools (self : BaseAgent) : list tree :=
  map (λ nt : string * Tool,
         TDict [("name", TStr (name nt.2));
                ("description", TStr (description nt.2));
                ("input_schema", schema_or_none (input_schema nt.2));
                ("output_schema", schema_or_none (output_schema nt.2))])
      (tools self).

(** [BaseAgent.process]; the coroutine awaits nothing, so it runs from
    start to end when awaited. *)
Definition process (input_text : string) (self : BaseAgent)
  : BaseAgent * string :=
  let response := agent_name self +:+ " received: " +:+ input_text in
  ({| agent_name := agent_name self;
      agent_description := agent_description self;
      tools := tools self;
      conversation :=
        conversation self
        ++ [{| role := "user"; content := input_text; metadata := None |}]
        ++ [{| role := "assistant"; content := response; metadata := None |}];
      context := context self |},
   response).

(** [BaseAgent.set_context] *)
Definition set_context (c : loc) (self : BaseAgent) : BaseAgent :=
  {| agent_name := agent_name self;
     agent_description := agent_description self;
     tools := tools self; conversation := conversation self; context := c |}.

(** [BaseAgent.get_context]: the key is looked up as it is. *)
Definition get_context (key : option string) (default : value) (h : heap)
    (self : BaseAgent) : value :=
  match key with
  | None => VDict (context self)
  | Some k =>
      match h !! context self with
      | Some d =>
          match dict_get k d with
          | Some v => v
          | None => default
          end
      | None => default
      end
  end.

(** [BaseAgent.reset] *)
Definition reset (self : BaseAgent) : BaseAgent :=
  {| agent_name := agent_name self;
     agent_description := agent_description self;
     tools := tools self; conversation := []; context := context self |}.

(** The calls that a client makes on an agent, and a run of them; a call
    that raises leaves the agent as it was. *)
Inductive call : Type :=
| CAddTool (tool : tool_arg) (n d : option string)
           (isch osch : option model_class)
| CRemoveTool (n : string)
| CProcess (input_text : string)
| CSetContext (c : loc)
| CReset.

Definition do_call (c : call) (self : BaseAgent) : BaseAgent :=
  match c with
  | CAddTool tool n d isch osch =>
      match add_tool tool n d isch osch self with
      | Ok self' => self'
      | Raise _ => self
      end
  | CRemoveTool n => (remove_tool n self).1
  | CProcess input_text => (process input_text self).1
  | CSetContext c => set_context c self
  | CReset => reset self
  end.

Definition run (cs : list call) (self : BaseAgent) : BaseAgent :=
  foldl (λ a c, do_call c a) self cs.

(** The messages and the answers of processing the inputs one after the
    other. *)
Definition exchange (n : string) (input_text : string) : list Message :=
  [{| role := "user"; content := input_text; metadata := None |};
   {| role := "assistant"; content := n +:+ " received: " +:+ input_text;
      metadata := None |}].

Fixpoint process_all (inputs : list string) (self : BaseAgent)
  : BaseAgent * list string :=
  match inputs with
  | [] => (self, [])
  | i :: inputs' =>
      let '(self1, r) := process i self in
      let '(self2, rs) := process_all inputs' self1 in
      (self2, r :: rs)
  end.


(** A function with a docstring, as in tests/test_core.py, and a lambda. *)
Definition test_tool_fn : callable :=
  {| __name__ := "test_tool"; __doc__ := Some "Test tool."; fn_id := 0 |}.

Definition a_lambda : callable :=
  {| __name__ := "<lambda>"; __doc__ := None; fn_id := 1 |}.

Definition test_agent : BaseAgent := (init "TestAgent" "A test agent" []).2.

(** [base_agent.add_tool(test_tool)] of tests/test_core.py. *)
Definition test_agent_with_tool : BaseAgent :=
  {| agent_name := "TestAgent"; agent_description := "A test agent";
     tools := [("test_tool",
                {| name := "test_tool"; description := "Test tool.";
                   func := test_tool_fn;
                   input_schema := None; output_schema := None |})];
     conversation := []; context := 0 |}.

End Agent.

(** ** Tools: src/core/tools.py *)

Module Tools.

(** The exceptions met here; [except Exception] catches them all. *)
Inductive exn : Type :=
| ToolError (msg : string)
| ValidationError (msg : string)
| OtherError (msg : string).

(** [str(e)] *)
Definition exn_str (e : exn) : string :=
  match e with
  | ToolError m | ValidationError m | OtherError m => m
  end.

Inductive raised (A : Type) : Type :=
| Returned (a : A)
| Raised (e : exn).
Arguments Returned {A} _.
Arguments Raised {A} _.

(** A field of a pydantic model: its name, its default ([None] for a
    required field, [Field(...)]) and the validation of a given value, which
    accepts it, maybe converted, or refuses it. *)
Record field : Type := mkField {
  fname : string;
  fdefault : option tree;
  accepts : tree → option tree
}.

(** A pydantic model class is its fields; keyword arguments and the
    instances are values by field name. *)
Abbreviation model_class := (list field).
Abbreviation kwargs := (list (string * tree)).

(** Calling the class with keyword arguments: each field takes the value
    given for it, if it is accepted, or else its default; a required field
    that is not given, or a value that is refused, is a validation error,
    whose message here names the field only; arguments that name no field
    are ignored. *)
Fixpoint instantiate (cls : model_class) (kw : kwargs) : raised kwargs :=
  match cls with
  | [] => Returned []
  | f :: cls' =>
      let v :=
        match tree_get (fname f) kw with
        | Some given =>
            match accepts f given with
            | Some v => Returned v
            | None => Raised (ValidationError (fname f +:+ ": Input not valid"))
            end
        | None =>
            match fdefault f with
            | Some v => Returned v
            | None => Raised (ValidationError (fname f +:+ ": Field required"))
            end
        end in
      match v, instantiate cls' kw with
      | Returned v, Returned inst => Returned ((fname f, v) :: inst)
      | Raised e, _ => Raised e
      | _, Raised e => Raised e
      end
  end.

(** [class BaseTool]: the class attributes and the [_execute] method, by
    what it returns or raises for an input in the present state of the file
    system. *)
Record BaseTool : Type := mkBaseTool {
  name : string;
  description : string;
  version : string;
  input_schema : model_class;
  output_schema : model_class;
  _execute : kwargs → raised tree
}.

(** [BaseTool.validate_input] *)
Definition validate_input (self : BaseTool) (input_data : kwargs)
  : raised kwargs :=
  match instantiate (input_schema self) input_data with
  | Returned i => Returned i
  | Raised e => Raised (ToolError ("Invalid input: " +:+ exn_str e))
  end.

(** [BaseTool.validate_output] *)
Definition validate_output (self : BaseTool) (output_data : kwargs)
  : raised kwargs :=
  match instantiate (output_schema self) output_data with
  | Returned o => Returned o
  | Raised e => Raised (ToolError ("Invalid output: " +:+ exn_str e))
  end.

(** The arguments of [self.output_schema(...)] in the [except] clause of
    [execute]. *)
Definition failure_kwargs (e : exn) : kwargs :=
  [("success", TBool false);
   ("message", TStr ("Tool execution failed: " +:+ exn_str e));
   ("data", TDict [("error", TStr (exn_str e))])].

Definition success_kwargs (result : tree) : kwargs :=
  [("success", TBool true);
   ("message", TStr "Operation completed successfully");
   ("data", result)].

(** [BaseTool.execute]; the coroutine runs from start to end when awaited.
    What the [except] clause itself raises leaves [execute]. *)
Definition execute (self : BaseTool) (kw : kwargs) : raised kwargs :=
  let try_block :=
    match validate_input self kw with
    | Raised e => Raised e
    | Returned input_data =>
        match _execute self input_data with
        | Raised e => Raised e
        | Returned result => validate_output self (success_kwargs result)
        end
    end in
  match try_block with
  | Returned out => Returned out
  | Raised e => instantiate (output_schema self) (failure_kwargs e)
  end.

(** The validation of pydantic 2 in its default mode, which converts some
    values of other types, on the values modelled here.  A [bool] field
    takes a boolean, the integers 0 and 1, and the strings that, in lower
    case, are one of "0", "off", "f", "false", "n", "no" (false) or "1",
    "on", "t", "true", "y", "yes" (true). *)
Definition accepts_bool (t : tree) : option tree :=
  match t with
  | TBool _ => Some t
  | TInt 0 => Some (TBool false)
  | TInt 1 => Some (TBool true)
  | TStr s =>
      if str_in (str_lower s) ["0"; "off"; "f"; "false"; "n"; "no"]
      then Some (TBool false)
      else if str_in (str_lower s) ["1"; "on"; "t"; "true"; "y"; "yes"]
           then Some (TBool true)
           else None
  | _ => None
  end.

(** A [str] field takes a string and converts no number. *)
Definition accepts_str (t : tree) : option tree :=
  match t with TStr _ => Some t | _ => None end.

(** An [Optional[Dict[str, Any]]] field takes [None] or a dictionary, whose
    keys are strings here. *)
Definition accepts_optional_dict (t : tree) : option tree :=
  match t with TDict _ | TNone => Some t | _ => None end.

(** An [int] field takes an integer; which other values it converts is left
    open: the classes with such a field take its validation as a
    parameter.  [int_only] converts nothing. *)
Definition int_only (t : tree) : option tree :=
  match t with TInt _ => Some t | _ => None end.

(** [class ToolInput] and [class ToolOutput] *)
Definition ToolInput : model_class := [].

Definition ToolOutput : model_class :=
  [mkField "success" None accepts_bool;
   mkField "message" (Some (TStr "")) accepts_str;
   mkField "data" (Some TNone) accepts_optional_dict].

(** [class FileReadInput(ToolInput)] and [class FileReadOutput(ToolOutput)] *)
Definition FileReadInput : model_class :=
  ToolInput ++ [mkField "file_path" None accepts_str;
                mkField "encoding" (Some (TStr "utf-8")) accepts_str].

Definition FileReadOutput (accepts_int : tree → option tree) : model_class :=
  ToolOutput ++ [mkField "content" None accepts_str;
                 mkField "size" None accepts_int].

(** [class FileWriteInput(ToolInput)] *)
Definition FileWriteInput : model_class :=
  ToolInput ++ [mkField "file_path" None accepts_str;
                mkField "content" None accepts_str;
                mkField "encoding" (Some (TStr "utf-8")) accepts_str;
                mkField "append" (Some (TBool false)) accepts_bool].

(** What the file tools ask of the file system: whether a path exists,
    [Path.read_text] with an encoding, opening a path in a mode with an
    encoding and writing a text to it, and [str(Path(p))]. *)
Record files : Type := mkFiles {
  file_exists : string → bool;
  read_text : string → string → raised string;
  write_text : string → string → string → string → raised unit;
  path_str : string → string
}.

(** [BaseTool()] with the default [_execute], which returns
    [input_data.dict()]. *)
Definition base_tool : BaseTool :=
  {| name := "base_tool"; description := "Base tool class";
     version := "0.1.0";
     input_schema := ToolInput; output_schema := ToolOutput;
     _execute := λ input_data, Returned (TDict input_data) |}.

(** [class FileReadTool(BaseTool)] *)
Definition FileReadTool (accepts_int : tree → option tree) (fs : files)
  : BaseTool :=
  {| name := "file_read"; description := "Read content from a file";
     version := "0.1.0";
     input_schema := FileReadInput;
     output_schema := FileReadOutput accepts_int;
     _execute := λ input_data,
       match tree_get "file_path" input_data,
             tree_get "encoding" input_data with
       | Some (TStr file_path), Some (TStr encoding) =>
           if negb (file_exists fs file_path)
           then Raised (ToolError ("File not found: "
                                   +:+ path_str fs file_path))
           else
             match read_text fs file_path encoding with
             | Returned text =>
                 Returned
                   (TDict [("content", TStr text);
                           ("size", TInt (Z.of_nat (String.length text)))])
             | Raised e => Raised e
             end
       | _, _ => Raised (OtherError "AttributeError")
       end |}.

(** [class FileWriteTool(BaseTool)]; the output class is the inherited
    [ToolOutput]. *)
Definition FileWriteTool (fs : files) : BaseTool :=
  {| name := "file_write"; description := "Write content to a file";
     version := "0.1.0";
     input_schema := FileWriteInput; output_schema := ToolOutput;
     _execute := λ input_data,
       match tree_get "file_path" input_data,
             tree_get "content" input_data,
             tree_get "encoding" input_data,
             tree_get "append" input_data with
       | Some (TStr file_path), Some (TStr text), Some (TStr encoding),
         Some (TBool append) =>
           let mode := if append then "a" else "w" in
           match write_text fs file_path mode encoding text with
           | Returned _ =>
               Returned
                 (TDict [("success", TBool true);
                         ("message",
                          TStr ("Successfully wrote to "
                                +:+ path_str fs file_path))])
           | Raised e =>
               Raised (ToolError ("Failed to write to file: " +:+ exn_str e))
           end
       | _, _, _, _ => Raised (OtherError "AttributeError")
       end |}.

(** A file system with one file, which cannot be written. *)
Definition one_file : files :=
  {| file_exists := λ p, String.eqb p "notes.txt";
     read_text := λ p enc, Returned "hello";
     write_text := λ p mode enc text,
       Raised (OtherError "[Errno 13] Permission denied");
     path_str := λ p, p |}.

End Tools.

(** * Properties *)

(** ** Dictionaries *)

Lemma dict_get_Some_elem k v (d : dict) :
  dict_get k d = Some v → (k, v) ∈ d.
Proof.
  induction d as [|[k' v'] d IH]; simpl; [done|].
  destruct (String.eqb_spec k k') as [->|Hne].
  - intros [= ->]. left.
  - intros H. right. auto.
Qed.

Lemma dict_get_None k (d : dict) : dict_get k d = None ↔ k ∉ d.*1.
Proof.
  induction d as [|[k' v'] d IH]; simpl.
  - split; [intros _; apply not_elem_of_nil | done].
  - destruct (String.eqb_spec k k') as [->|Hne].
    + split; [done|]. intros H. exfalso. apply H. left.
    + rewrite IH. rewrite not_elem_of_cons. naive_solver.
Qed.

Lemma dict_get_elem k v (d : dict) :
  NoDup d.*1 → (k, v) ∈ d → dict_get k d = Some v.
Proof.
  induction d as [|[k' v'] d IH]; simpl.
  - intros _ H. by apply elem_of_nil in H.
  - intros Hnd Hin. apply NoDup_cons in Hnd as [Hk Hnd].
    apply elem_of_cons in Hin as [[= -> ->]|Hin].
    + by rewrite String.eqb_refl.
    + destruct (String.eqb_spec k k') as [->|Hne]; [|auto].
      exfalso. apply Hk. apply (list_elem_of_fmap_2 fst) in Hin. exact Hin.
Qed.

Lemma dict_set_keys k v (d : dict) k' :
  k' ∈ (dict_set k v d).*1 ↔ k' = k ∨ k' ∈ d.*1.
Proof.
  induction d as [|[k0 v0] d IH]; simpl.
  - rewrite list_elem_of_singleton. split; [auto|].
    intros [H|H]; [done|]. by apply elem_of_nil in H.
  - destruct (String.eqb_spec k k0) as [->|Hne]; simpl.
    + rewrite elem_of_cons. naive_solver.
    + rewrite !elem_of_cons, IH. naive_solver.
Qed.

Lemma dict_set_NoDup k v (d : dict) : NoDup d.*1 → NoDup (dict_set k v d).*1.
Proof.
  induction d as [|[k0 v0] d IH]; simpl.
  - intros _. apply NoDup_singleton.
  - intros Hnd. apply NoDup_cons in Hnd as [Hk Hnd].
    destruct (String.eqb_spec k k0) as [->|Hne]; simpl.
    + apply NoDup_cons. done.
    + apply NoDup_cons. split; [|auto].
      rewrite dict_set_keys. naive_solver.
Qed.

Lemma dict_set_elem k v (d : dict) k' v' :
  (k', v') ∈ dict_set k v d → (k' = k ∧ v' = v) ∨ (k', v') ∈ d.
Proof.
  induction d as [|[k0 v0] d IH]; simpl.
  - intros H. apply list_elem_of_singleton in H as [= -> ->]. auto.
  - destruct (String.eqb_spec k k0) as [->|Hne].
    + rewrite !elem_of_cons. naive_solver.
    + rewrite !elem_of_cons. naive_solver.
Qed.

Lemma dict_get_set_eq k v (d : dict) : dict_get k (dict_set k v d) = Some v.
Proof.
  induction d as [|[k0 v0] d IH]; simpl.
  - by rewrite String.eqb_refl.
  - destruct (String.eqb_spec k k0) as [->|Hne]; simpl.
    + by rewrite String.eqb_refl.
    + destruct (String.eqb_spec k k0); [done|auto].
Qed.

Lemma dict_get_set_ne k k' v (d : dict) :
  k ≠ k' → dict_get k' (dict_set k v d) = dict_get k' d.
Proof.
  intros Hne. induction d as [|[k0 v0] d IH]; simpl.
  - destruct (String.eqb_spec k' k); [congruence|done].
  - destruct (String.eqb_spec k k0) as [->|Hne0]; simpl.
    + destruct (String.eqb_spec k' k0); [congruence|done].
    + destruct (String.eqb_spec k' k0); [done|auto].
Qed.

(** Binding a key to the value it has changes nothing. *)
Lemma dict_set_same k v (d : dict) :
  dict_get k d = Some v → dict_set k v d = d.
Proof.
  induction d as [|[k' v'] d IH]; simpl; [done|].
  destruct (String.eqb_spec k k') as [->|Hne].
  - by intros [= ->].
  - intros H. by rewrite IH.
Qed.

(** ** Loops over the items of a dictionary *)

(** As long as the body leaves the dictionary that is read as it is, the
    loop over its view is the loop over its items.  [P rest h] is what
    holds of the heap when the items [rest] are still to come. *)
Lemma for_items_for_in (P : dict → heap → Prop) body s (items : dict) :
  (∀ rest h, P rest h → h !! s = Some items) →
  (∀ x rest h h', P (x :: rest) h → body h x = Some (h', Ok tt) → P rest h') →
  ∀ h, P items h →
       for_items body s (length items) (length items) h = for_in body items h.
Proof.
  intros Hread Hkeep.
  assert (Hgen : ∀ rest pre h,
             items = pre ++ rest → P rest h →
             for_items body s (length items) (length rest) h
             = for_in body rest h).
  { induction rest as [|x rest IH]; intros pre h Heq HP.
    - simpl. rewrite (Hread _ h HP), Nat.eqb_refl. done.
    - cbn [for_items for_in length]. rewrite (Hread _ h HP), Nat.eqb_refl.
      cbn [negb].
      assert (items !! (length items - S (length rest)) = Some x) as ->.
      { rewrite Heq, length_app. cbn [length].
        replace (length pre + S (length rest) - S (length rest))
          with (length pre) by lia.
        by rewrite list_lookup_middle. }
      destruct (body h x) as [[h' [[]|e]]|] eqn:Hbody; [|done..].
      apply (IH (pre ++ [x])).
      + by rewrite <- app_assoc.
      + by apply (Hkeep x rest h). }
  intros h HP. by apply (Hgen items []).
Qed.

(** ** The tests decide well-formedness *)

Lemma nodup_keysb_sound (d : dict) : nodup_keysb d = true → NoDup d.*1.
Proof.
  induction d as [|[k v] d IH]; simpl; [intros _; apply NoDup_nil_2|].
  intros [Hk Hd]%andb_prop. apply NoDup_cons. split; [|auto].
  intros Hin. apply negb_true_iff in Hk.
  assert (str_in k d.*1 = true) as Hc; [|congruence].
  unfold str_in. apply existsb_exists. exists k. split.
  - by apply list_elem_of_In.
  - apply String.eqb_refl.
Qed.

Lemma dict_okb_sound lvl size n (d : dict) :
  dict_okb lvl size n d = true → dict_ok lvl size n d.
Proof.
  unfold dict_okb, dict_ok. intros [Hnd Hall]%andb_prop.
  split; [by apply nodup_keysb_sound|].
  intros k l Hin. rewrite forallb_forall in Hall.
  apply list_elem_of_In, Hall in Hin. simpl in Hin.
  apply andb_prop in Hin as [H1 H2].
  apply Nat.ltb_lt in H1. apply Nat.eqb_eq in H2. done.
Qed.

Lemma heap_okb_from_sound lvl D size i (h : heap) :
  heap_okb_from lvl D size i h = true →
  ∀ l d, h !! l = Some d → lvl (i + l) ≤ D ∧ dict_ok lvl size (lvl (i + l)) d.
Proof.
  revert i. induction h as [|d0 h IH]; intros i; simpl; [done|].
  intros [[H1 H2]%andb_prop H3]%andb_prop [|l] d Hl; simpl in Hl.
  - injection Hl as <-. rewrite Nat.add_0_r. split.
    + by apply Nat.leb_le.
    + by apply dict_okb_sound.
  - replace (i + S l) with (S i + l) by lia. by apply IH.
Qed.

Lemma store_okb_sound lvl D h self :
  store_okb lvl D h self = true → store_ok lvl D h self.
Proof.
  unfold store_okb, store_ok. intros [H1 H2]%andb_prop. split.
  - intros l d Hl. by apply (heap_okb_from_sound lvl D (length h) 0 h H1 l d).
  - intros src Hin. rewrite forallb_forall in H2.
    apply list_elem_of_In, H2, andb_prop in Hin as [Ha Hb].
    apply Nat.ltb_lt in Ha. apply Nat.eqb_eq in Hb. done.
Qed.

(** ** Deep merge on a well-formed heap *)

(** The depths [lvl] of the objects and their bound [D] are fixed while a
    merge runs: it makes no object. *)
Section DeepMerge.
Variable lvl : loc → nat.
Variable D : nat.

Lemma heap_ok_insert (h : heap) t d d' :
  heap_ok lvl D h → h !! t = Some d → dict_ok lvl (length h) (lvl t) d' →
  heap_ok lvl D (<[t := d']> h).
Proof.
  intros Hok Ht Hd' l dl Hl. rewrite length_insert.
  destruct (decide (t = l)) as [->|Hne].
  - rewrite list_lookup_insert_eq in Hl by (by eapply lookup_lt_Some).
    injection Hl as <-. split; [|done]. by apply (Hok l d).
  - rewrite list_lookup_insert_ne in Hl by done. by apply Hok.
Qed.

(** One item of the loop: the body returns; it writes to [target] only, or
    below it. *)
Lemma merge_item_ok rec n :
  merges_at lvl D (S n) rec →
  ∀ key value t (h : heap) d,
    heap_ok lvl D h → h !! t = Some d → lvl t = n →
    (∀ l, value = VDict l → l < length h ∧ lvl l = S n) →
    ∃ h1 d1,
      merge_item rec t h (key, value) = Some (h1, Ok tt) ∧
      merge_post lvl D t h h1 ∧ h1 !! t = Some d1 ∧
      (∀ k, k ≠ key → dict_get k d1 = dict_get k d) ∧
      (isinstance_dict value = false → dict_get key d1 = Some value) ∧
      (d1 = d ∨ d1 = dict_set key value d).
Proof.
  intros Hrec key value t h d Hok Ht Hlvl Hrefs.
  assert (Hwrite : ∃ h1 d1,
    Some (<[t := dict_set key value d]> h, Ok tt) = Some (h1, Ok tt) ∧
    merge_post lvl D t h h1 ∧ h1 !! t = Some d1 ∧
    (∀ k, k ≠ key → dict_get k d1 = dict_get k d) ∧
    (isinstance_dict value = false → dict_get key d1 = Some value) ∧
    (d1 = d ∨ d1 = dict_set key value d)).
  { exists (<[t := dict_set key value d]> h), (dict_set key value d).
    split; [done|]. split; [|split; [|split; [|split]]].
    - split; [|split].
      + eapply heap_ok_insert; [done..|].
        destruct (Hok t d Ht) as [_ [Hnd_d Hrefs_d]]. split.
        * by apply dict_set_NoDup.
        * intros k l [[-> <-]|Hin]%dict_set_elem.
          -- rewrite Hlvl. by apply Hrefs.
          -- by apply Hrefs_d with k.
      + apply length_insert.
      + intros l Hne _. by apply list_lookup_insert_ne.
    - apply list_lookup_insert_eq. by eapply lookup_lt_Some.
    - intros k Hne. apply dict_get_set_ne. congruence.
    - intros _. apply dict_get_set_eq.
    - by right. }
  unfold merge_item. rewrite Ht.
  destruct (dict_get key d) as [[| | | | |t']|] eqn:Hget; try exact Hwrite.
  destruct value as [| | | | |s']; try exact Hwrite.
  destruct (Hok t d Ht) as [_ [_ Hrefs_d]].
  destruct (Hrefs_d key t') as [Ht' Hlt'];
    [by apply dict_get_Some_elem|].
  destruct (Hrefs s') as [Hs' Hls']; [done|].
  destruct (Hrec t' s' h) as (h1 & Hrun & Hok1 & Hlen1 & Hframe1);
    [done|done|done|congruence|done|].
  assert (h1 !! t = h !! t) as Hsame.
  { apply Hframe1; [intros ->|]; lia. }
  exists h1, d. split; [done|]. split; [|split; [|split; [|split]]].
  - split; [done|]. split; [done|].
    intros l Hne Hl. apply Hframe1; [intros ->|]; lia.
  - by rewrite Hsame.
  - done.
  - done.
  - by left.
Qed.

(** The body leaves the dictionary that is read as it is: a dictionary
    other than [target] is not written to, and [target] itself is bound, key
    by key, to the values it has. *)
Lemma merge_item_keeps_source rec n :
  merges_at lvl D (S n) rec →
  ∀ key value t s (h h1 : heap) (items : dict),
    heap_ok lvl D h → t < length h → lvl t = n → lvl s = n →
    h !! s = Some items → (key, value) ∈ items →
    merge_item rec t h (key, value) = Some (h1, Ok tt) →
    heap_ok lvl D h1 ∧ length h1 = length h ∧ h1 !! s = Some items.
Proof.
  intros Hrec key value t s h h1 items Hok Ht Hlt Hls Hs Hin Hrun.
  destruct (lookup_lt_is_Some_2 h t Ht) as [d Hd].
  destruct (Hok s items Hs) as [_ [Hnd Hrefs]].
  destruct (merge_item_ok rec n Hrec key value t h d)
    as (h2 & d1 & Hrun2 & (Hok2 & Hlen2 & Hframe2) & Hd1 & _ & _ & Hshape);
    [done..| |].
  { intros l ->. rewrite <- Hls. by apply Hrefs with key. }
  assert (h2 = h1) as -> by congruence.
  split; [done|]. split; [done|].
  destruct (decide (s = t)) as [->|Hne].
  - assert (d = items) as -> by congruence.
    rewrite Hd1. f_equal. destruct Hshape as [->| ->]; [done|].
    apply dict_set_same. by apply dict_get_elem.
  - rewrite Hframe2; [done|done|lia].
Qed.

(** So the loop of [_deep_merge] over the view of [source] is the loop over
    the items [source] has when it starts. *)
Lemma deep_merge_for_in fuel t s (h : heap) (items : dict) :
  merges_at lvl D (S (lvl t)) (_deep_merge fuel) →
  heap_ok lvl D h → t < length h → h !! s = Some items → lvl t = lvl s →
  _deep_merge (S fuel) t s h
  = for_in (merge_item (_deep_merge fuel) t) items h.
Proof.
  intros Hrec Hok Ht Hs Hlvl. cbn [_deep_merge]. rewrite Hs.
  apply (for_items_for_in
           (λ rest h1, (∀ x, x ∈ rest → x ∈ items) ∧ heap_ok lvl D h1 ∧
                       length h1 = length h ∧ h1 !! s = Some items));
    [| |done].
  - by intros rest h1 (_ & _ & _ & H).
  - intros [key value] rest h1 h2 (Hin & Hok1 & Hlen1 & Hs1) Hrun.
    destruct (merge_item_keeps_source (_deep_merge fuel) (lvl t) Hrec
                key value t s h1 h2 items) as (Hok2 & Hlen2 & Hs2);
      [done|lia|done|done|done| |done|].
    { apply Hin. left. }
    split; [|split; [done|split; [congruence|done]]].
    intros x Hx. apply Hin. by right.
Qed.

Lemma merge_items_ok rec n :
  merges_at lvl D (S n) rec →
  ∀ (items : dict) t (h : heap) d,
    heap_ok lvl D h → h !! t = Some d → lvl t = n →
    NoDup items.*1 →
    (∀ k l, (k, VDict l) ∈ items → l < length h ∧ lvl l = S n) →
    ∃ h' d',
      for_in (merge_item rec t) items h = Some (h', Ok tt) ∧
      merge_post lvl D t h h' ∧ h' !! t = Some d' ∧
      (∀ k, k ∉ items.*1 → dict_get k d' = dict_get k d) ∧
      (∀ k v, (k, v) ∈ items → isinstance_dict v = false →
              dict_get k d' = Some v).
Proof.
  intros Hrec items. induction items as [|[key value] items IH];
    intros t h d Hok Ht Hlvl Hnd Hrefs.
  - exists h, d. simpl. split; [done|]. split; [by split|].
    split; [done|]. split; [done|].
    intros k v Hin. by apply elem_of_nil in Hin.
  - simpl in Hnd. apply NoDup_cons in Hnd as [Hkey Hnd].
    destruct (merge_item_ok rec n Hrec key value t h d)
      as (h1 & d1 & Hrun1 & (Hok1 & Hlen1 & Hframe1) & Ht1
          & Hother1 & Hkey1 & _); [done..| |].
    { intros l ->. apply Hrefs with key. left. }
    destruct (IH t h1 d1) as (h' & d' & Hrun & (Hok' & Hlen' & Hframe')
                              & Ht' & Hother & Hscalar); [done..| |].
    { intros k l Hin. rewrite Hlen1. apply Hrefs with k. by right. }
    exists h', d'. cbn [for_in]. rewrite Hrun1.
    split; [done|]. split; [|split; [done|split]].
    + split; [done|]. split; [congruence|].
      intros l Hne Hl. rewrite Hframe', Hframe1; done.
    + intros k Hk. simpl in Hk. apply not_elem_of_cons in Hk as [Hk1 Hk2].
      rewrite Hother, Hother1; done.
    + intros k v [[= -> ->]|Hin]%elem_of_cons Hv.
      * rewrite Hother by done. auto.
      * by apply Hscalar.
Qed.

(** With more fuel than the heap is deep, [_deep_merge] returns; it keeps
    the heap well formed, touches nothing at or above the depth of
    [target] but [target] itself, leaves alone the keys of [target] that
    [source] does not have, and binds to the value of [source] every key
    that [source] binds to something that is not a dictionary. *)
Lemma deep_merge_spec fuel :
  ∀ t s (h : heap) d items,
    heap_ok lvl D h → h !! t = Some d → h !! s = Some items →
    lvl t = lvl s → D < fuel + lvl s →
    ∃ h' d',
      _deep_merge fuel t s h = Some (h', Ok tt) ∧
      merge_post lvl D t h h' ∧ h' !! t = Some d' ∧
      (∀ k, dict_get k items = None → dict_get k d' = dict_get k d) ∧
      (∀ k v, dict_get k items = Some v → isinstance_dict v = false →
              dict_get k d' = Some v).
Proof.
  induction fuel as [|fuel IH]; intros t s h d items Hok Ht Hs Hlvl Hfuel.
  - destruct (Hok s items Hs) as [Hle _]. lia.
  - destruct (Hok s items Hs) as [Hle [Hnd Hrefs]].
    assert (Hrec : merges_at lvl D (S (lvl t)) (_deep_merge fuel)).
    { intros t1 s1 h1 Hok1 Ht1 Hs1 Hl1 Hl2.
      destruct (lookup_lt_is_Some_2 h1 t1 Ht1) as [dt Hdt].
      destruct (lookup_lt_is_Some_2 h1 s1 Hs1) as [ds Hds].
      destruct (IH t1 s1 h1 dt ds) as (h2 & d2 & Hrun2 & Hpost2 & _);
        [done|done|done|congruence|lia|].
      by exists h2. }
    destruct (merge_items_ok (_deep_merge fuel) (lvl t)) with
      (items := items) (t := t) (h := h) (d := d)
      as (h' & d' & Hrun & Hpost & Ht' & Hother & Hscalar); try done.
    { intros k l Hin. rewrite Hlvl. by apply Hrefs with k. }
    exists h', d'.
    rewrite (deep_merge_for_in fuel t s h items)
      by (done || by eapply lookup_lt_Some).
    split; [done|]. split; [done|]. split; [done|]. split.
    + intros k Hk. apply Hother. by apply dict_get_None.
    + intros k v Hk. apply Hscalar. by apply dict_get_Some_elem.
Qed.

(** With more fuel than the heap is deep, the recursive calls return. *)
Lemma deep_merge_merges_at fuel n :
  D < S fuel + n → merges_at lvl D (S n) (_deep_merge fuel).
Proof.
  intros Hfuel t1 s1 h1 Hok1 Ht1 Hs1 Hl1 Hl2.
  destruct (lookup_lt_is_Some_2 h1 t1 Ht1) as [dt Hdt].
  destruct (lookup_lt_is_Some_2 h1 s1 Hs1) as [ds Hds].
  destruct (deep_merge_spec fuel t1 s1 h1 dt ds)
    as (h2 & d2 & Hrun2 & Hpost2 & _); [done|done|done|congruence|lia|].
  by exists h2.
Qed.

(** The dictionary being read is not written to, unless it is the target
    itself. *)
Lemma deep_merge_source_unchanged fuel t s (h h' : heap) :
  heap_ok lvl D h → t < length h → s < length h → lvl t = lvl s →
  D < fuel + lvl s → s ≠ t →
  _deep_merge fuel t s h = Some (h', Ok tt) → h' !! s = h !! s.
Proof.
  intros Hok Ht Hs Hlvl Hfuel Hne Hrun.
  destruct (lookup_lt_is_Some_2 h t Ht) as [dt Hdt].
  destruct (lookup_lt_is_Some_2 h s Hs) as [ds Hds].
  destruct (deep_merge_spec fuel t s h dt ds)
    as (h2 & d2 & Hrun2 & (_ & _ & Hframe) & _); [done..|].
  assert (h2 = h') as -> by congruence.
  apply Hframe; [done|lia].
Qed.
End DeepMerge.

(** ** Merging the fragments *)

Lemma lacks_binds_frame lvl D r (h h' : heap) src :
  merge_post lvl D r h h' → content src ≠ r →
  lvl (content src) = 0 → h' !! content src = h !! content src.
Proof. intros (_ & _ & Hframe) Hne Hl. apply Hframe; [done|lia]. Qed.

(** The loop of [merge_contexts] over the sorted fragments, into the
    accumulator [r]: it returns; a key no fragment has stays as it was; a
    key that some fragment binds to a value that is not a dictionary, and
    that no later fragment has, ends bound to that value. *)
Lemma merge_sources_ok lvl D fuel r (srcs : list ContextSource) :
  D < fuel → lvl r = 0 →
  ∀ (h : heap) d,
    heap_ok lvl D h → h !! r = Some d →
    (∀ src, src ∈ srcs →
            content src < length h ∧ lvl (content src) = 0 ∧ content src ≠ r) →
    ∃ h' d',
      for_in (λ h src, _deep_merge fuel r (content src) h) srcs h
      = Some (h', Ok tt) ∧
      merge_post lvl D r h h' ∧ h' !! r = Some d' ∧
      (∀ k, (∀ src, src ∈ srcs → lacks h src k) →
            dict_get k d' = dict_get k d) ∧
      (∀ k v pre B post,
         srcs = pre ++ B :: post → binds h B k v →
         isinstance_dict v = false →
         (∀ src, src ∈ post → lacks h src k) →
         dict_get k d' = Some v).
Proof.
  intros Hfuel Hr. induction srcs as [|x srcs IH]; intros h d Hok Hd Hsrcs.
  - exists h, d. simpl. split; [done|]. split; [by split|].
    split; [done|]. split; [done|].
    intros k v pre B post Heq. by destruct pre.
  - destruct (Hsrcs x) as (Hx & Hlx & Hxr); [left|].
    destruct (lookup_lt_is_Some_2 h (content x) Hx) as [items Hitems].
    destruct (deep_merge_spec lvl D fuel r (content x) h d items)
      as (h1 & d1 & Hrun1 & Hpost1 & Hd1 & Hother1 & Hscalar1);
      [done|done|done|congruence|lia|].
    assert (Hlen1 : length h1 = length h) by apply Hpost1.
    assert (Hsame : ∀ src, src ∈ x :: srcs →
                           h1 !! content src = h !! content src).
    { intros src Hin. destruct (Hsrcs src Hin) as (_ & Hl & Hne).
      by eapply lacks_binds_frame. }
    destruct (IH h1 d1) as (h' & d' & Hrun & Hpost & Hd' & Hother & Hscalar).
    { apply Hpost1. }
    { done. }
    { intros src Hin. rewrite Hlen1. apply Hsrcs. by right. }
    exists h', d'. cbn [for_in]. rewrite Hrun1.
    split; [done|]. split; [|split; [done|split]].
    + destruct Hpost1 as (_ & _ & Hf1). destruct Hpost as (Hok' & Hlen' & Hf).
      split; [done|]. split; [congruence|].
      intros l Hne Hl. rewrite Hf, Hf1; done.
    + intros k Hk. rewrite Hother.
      * apply Hother1. destruct (Hk x) as (dx & Hdx & Hget); [left|].
        congruence.
      * intros src Hin. destruct (Hk src) as (ds & Hds & Hget); [by right|].
        exists ds. split; [|done]. rewrite Hsame; [done|by right].
    + intros k v pre B post Heq (dB & HdB & HgetB) Hv Hlacks.
      destruct pre as [|y pre]; simpl in Heq; injection Heq as -> ->.
      * rewrite Hother.
        -- apply Hscalar1; [congruence|done].
        -- intros src Hin. destruct (Hlacks src Hin) as (ds & Hds & Hget).
           exists ds. split; [|done]. rewrite Hsame; [done|by right].
      * apply (Hscalar k v pre B post); [done| |done|].
        -- exists dB. split; [|done]. rewrite Hsame; [done|].
           right. apply elem_of_app. right. left.
        -- intros src Hin. destruct (Hlacks src Hin) as (ds & Hds & Hget).
           exists ds. split; [|done]. rewrite Hsame; [done|].
           right. apply elem_of_app. right. by right.
Qed.

Lemma heap_ok_alloc lvl D (h : heap) :
  heap_ok lvl D h → heap_ok (lvl_fresh lvl (length h)) D (h ++ [[]]).
Proof.
  intros Hok l d Hl. unfold lvl_fresh, lvl_at. rewrite length_app. simpl.
  destruct (Nat.eqb_spec l (length h)) as [->|Hne].
  - rewrite lookup_app_r, Nat.sub_diag in Hl by lia. injection Hl as <-.
    split; [lia|]. split; [apply NoDup_nil_2|].
    intros k l' Hin. by apply elem_of_nil in Hin.
  - assert (l < length h) as Hlt.
    { apply lookup_lt_Some in Hl. rewrite length_app in Hl. simpl in Hl. lia. }
    rewrite lookup_app_l in Hl by done.
    destruct (Hok l d Hl) as (Hle & Hnd & Hrefs).
    split; [done|]. split; [done|].
    intros k l' Hin. destruct (Hrefs k l' Hin) as [Hlt' Hl'].
    destruct (Nat.eqb_spec l' (length h)); [lia|]. split; [lia|done].
Qed.

Lemma insert_desc_elem (x y : ContextSource) (s : list ContextSource) :
  x ∈ insert_desc y s → x = y ∨ x ∈ s.
Proof.
  induction s as [|z s IH]; simpl.
  - rewrite list_elem_of_singleton. auto.
  - destruct (priority z <=? priority y)%Z; rewrite !elem_of_cons;
      naive_solver.
Qed.

Lemma sorted_sources_elem (l : list ContextSource) x :
  x ∈ sorted_sources l → x ∈ l.
Proof.
  induction l as [|y l IH]; simpl; [done|].
  intros [->|H]%insert_desc_elem; [left|right; auto].
Qed.

(** [merge_contexts] on a well-formed store: it returns the new accumulator,
    the store stays well formed, the top of every fragment's content is as
    it was, and the keys of the result are settled by the fragments in
    sorted order. *)
Lemma merge_contexts_spec lvl D fuel (h : heap) self :
  store_ok lvl D h self → D < fuel →
  ∃ h' d',
    merge_contexts fuel h self =
      Some (h', {| sources := sources self; context := length h |},
            Ok (length h)) ∧
    h' !! length h = Some d' ∧
    store_ok (lvl_fresh lvl (length h)) D h'
             {| sources := sources self; context := length h |} ∧
    (∀ src, src ∈ sources self → h' !! content src = h !! content src) ∧
    (∀ k v pre B post,
       sorted_sources (sources self) = pre ++ B :: post → binds h B k v →
       isinstance_dict v = false →
       (∀ src, src ∈ post → lacks h src k) →
       dict_get k d' = Some v).
Proof.
  intros [Hok Hsrcs] Hfuel. set (r := length h).
  assert (Hin_sorted : ∀ src, src ∈ sorted_sources (sources self) →
            content src < length (h ++ [[]]) ∧
            lvl_fresh lvl r (content src) = 0 ∧ content src ≠ r).
  { intros src Hin%sorted_sources_elem. destruct (Hsrcs src Hin) as [Hlt Hl].
    rewrite length_app. simpl. unfold lvl_fresh, lvl_at.
    destruct (Nat.eqb_spec (content src) r); subst r; [lia|].
    split; [lia|]. split; [done|lia]. }
  destruct (merge_sources_ok (lvl_fresh lvl r) D fuel r
              (sorted_sources (sources self)))
    with (h := h ++ [[]]) (d := @nil (string * value))
    as (h' & d' & Hrun & (Hok' & Hlen' & Hframe) & Hd' & _ & Hscalar).
  - done.
  - unfold lvl_fresh, lvl_at. by rewrite Nat.eqb_refl.
  - by apply heap_ok_alloc.
  - subst r. rewrite lookup_app_r, Nat.sub_diag by lia. done.
  - done.
  - assert (Hkeep : ∀ src, src ∈ sources self →
              h' !! content src = h !! content src).
    { intros src Hin. destruct (Hsrcs src Hin) as [Hlt Hl].
      rewrite Hframe.
      - by rewrite lookup_app_l.
      - subst r. lia.
      - unfold lvl_fresh, lvl_at. destruct (Nat.eqb_spec (content src) r); lia. }
    exists h', d'. unfold merge_contexts, alloc. fold r. rewrite Hrun.
    split; [done|]. split; [done|]. split; [|split; [done|]].
    + split; [done|]. simpl. intros src Hin.
      destruct (Hsrcs src Hin) as [Hlt Hl]. rewrite Hlen', length_app. simpl.
      unfold lvl_fresh, lvl_at.
      destruct (Nat.eqb_spec (content src) r); (split; [lia|done]).
    + intros k v pre B post Heq (dB & HdB & HgetB) Hv Hlacks.
      assert (HB : B ∈ sources self).
      { apply sorted_sources_elem. rewrite Heq. apply elem_of_app. right. left. }
      apply (Hscalar k v pre B post); [done| |done|].
      * exists dB. split; [|done]. destruct (Hsrcs B HB) as [Hlt _].
        by rewrite lookup_app_l.
      * intros src Hin. destruct (Hlacks src Hin) as (ds & Hds & Hget).
        exists ds. split; [|done]. rewrite lookup_app_l; [done|].
        by eapply lookup_lt_Some.
Qed.

(** ** The sort is stable *)

(** Inserting [y] into a list around [B] adds at most [y] to what follows
    [B], and only when the priority of [y] is strictly lower: a fragment
    added earlier with the same priority stays before [B]. *)
Lemma insert_desc_around y B (pre post : list ContextSource) :
  ∃ pre' post',
    insert_desc y (pre ++ B :: post) = pre' ++ B :: post' ∧
    ∀ x, x ∈ post' → (x = y ∧ (priority y < priority B)%Z) ∨ x ∈ post.
Proof.
  induction pre as [|z pre IH]; simpl.
  - destruct (Z.leb_spec (priority B) (priority y)).
    + exists [y], post. split; [done|auto].
    + exists nil, (insert_desc y post). split; [done|].
      intros x [->|Hx]%insert_desc_elem; auto.
  - destruct (priority z <=? priority y)%Z.
    + exists (y :: z :: pre), post. split; [done|auto].
    + destruct IH as (pre' & post' & -> & Hpost).
      exists (z :: pre'), post'. split; [done|auto].
Qed.

Lemma insert_desc_split B (s : list ContextSource) :
  ∃ pre post, insert_desc B s = pre ++ B :: post ∧ ∀ x, x ∈ post → x ∈ s.
Proof.
  induction s as [|z s IH]; simpl.
  - by exists nil, nil.
  - destruct (priority z <=? priority B)%Z.
    + by exists nil, (z :: s).
    + destruct IH as (pre & post & -> & Hp).
      exists (z :: pre), post. split; [done|].
      intros x Hx. right. auto.
Qed.

(** The sort is stable: in the order [merge_contexts] folds in, what comes
    after a fragment [B] are the fragments added before it with a strictly
    lower priority, and fragments added after it. *)
Lemma sorted_sources_stable (l1 l3 : list ContextSource) B :
  ∃ pre post,
    sorted_sources (l1 ++ B :: l3) = pre ++ B :: post ∧
    ∀ x, x ∈ post → (x ∈ l1 ∧ (priority x < priority B)%Z) ∨ x ∈ l3.
Proof.
  induction l1 as [|y l1 IH]; simpl.
  - destruct (insert_desc_split B (sorted_sources l3))
      as (pre & post & -> & Hp).
    exists pre, post. split; [done|].
    intros x Hx. right. by apply sorted_sources_elem, Hp.
  - destruct IH as (pre & post & -> & Hp).
    destruct (insert_desc_around y B pre post) as (pre' & post' & -> & Hp').
    exists pre', post'. split; [done|].
    intros x [[-> Hlt]|Hx]%Hp'.
    + left. split; [left|done].
    + destruct (Hp x Hx) as [[Hin Hlt]|Hin]; [|by right].
      left. split; [by right|done].
Qed.

(** ** Dotted paths *)

Lemma walk_resolve (h : heap) segs v :
  match resolve h segs v with
  | Some w => walk h segs v = Ok w
  | None => ∃ e, walk h segs v = Raise e ∧
                 (kind_of e = KKeyError ∨ kind_of e = KTypeError)
  end.
Proof.
  revert v. induction segs as [|k segs IH]; intros v; simpl; [done|].
  destruct v as [| | | | |l]; simpl; try (by exists TypeError; auto).
  destruct (h !! l) as [d|]; [|by exists (KeyError k); auto].
  destruct (dict_get k d) as [v'|]; [|by exists (KeyError k); auto].
  apply IH.
Qed.

(** ** Reading a key *)

(** [get_context] with a key on a well-formed store: it returns, it never
    raises, and what it returns is the value the path denotes in the mapping
    held in [self.context] after the call, or the default when the path
    denotes nothing. *)
Lemma get_context_key_spec lvl D fuel (h : heap) self key default :
  store_ok lvl D h self → D < fuel →
  ∃ h' self' v,
    get_context fuel (Some key) default h self = Some (h', self', Ok v) ∧
    v = match resolve h' (split_dot key) (VDict (context self')) with
        | Some w => w
        | None => default
        end.
Proof.
  intros Hok Hfuel. unfold get_context.
  assert (Hwalk : ∀ h1 self1, ∃ v,
    match walk h1 (split_dot key) (VDict (context self1)) with
    | Ok v => Ok v
    | Raise (KeyError _) | Raise TypeError => Ok default
    | Raise e => Raise e
    end = Ok v ∧
    v = match resolve h1 (split_dot key) (VDict (context self1)) with
        | Some w => w
        | None => default
        end).
  { intros h1 self1.
    pose proof (walk_resolve h1 (split_dot key) (VDict (context self1))) as Hw.
    destruct (resolve h1 (split_dot key) (VDict (context self1))) as [w|].
    - rewrite Hw. by exists w.
    - destruct Hw as (e & -> & He). exists default.
      destruct e; simpl in He; destruct He; done. }
  destruct (context_is_empty h self).
  - destruct (merge_contexts_spec lvl D fuel h self Hok Hfuel)
      as (h' & d' & -> & _).
    destruct (Hwalk h' {| sources := sources self; context := length h |})
      as (v & Hv1 & Hv2).
    exists h', {| sources := sources self; context := length h |}, v.
    by rewrite Hv1.
  - destruct (Hwalk h self) as (v & Hv1 & Hv2).
    exists h, self, v. by rewrite Hv1.
Qed.

(** ** Every store the calls build is well formed *)

Lemma tree_nested_ind (P : tree → Prop) :
  P TNone → (∀ b, P (TBool b)) → (∀ z, P (TInt z)) → (∀ s, P (TStr s)) →
  (∀ ts, Forall P ts → P (TList ts)) →
  (∀ items, Forall (λ kt : string * tree, P kt.2) items → P (TDict items)) →
  ∀ t, P t.
Proof.
  intros HN HB HI HS HL HD. fix IH 1. intros [|b|z|s|ts|items].
  - exact HN.
  - apply HB.
  - apply HI.
  - apply HS.
  - apply HL. induction ts as [|t ts IHts]; constructor.
    + apply IH.
    + exact IHts.
  - apply HD. induction items as [|[k t] items IHitems]; constructor.
    + apply IH.
    + exact IHitems.
Qed.

Lemma extends_refl lvl (h : heap) : extends lvl h lvl h.
Proof. split; [done|]. intros l _. done. Qed.

Lemma extends_trans lvl1 (h1 : heap) lvl2 (h2 : heap) lvl3 (h3 : heap) :
  extends lvl1 h1 lvl2 h2 → extends lvl2 h2 lvl3 h3 → extends lvl1 h1 lvl3 h3.
Proof.
  intros [Hlen1 H1] [Hlen2 H2]. split; [lia|].
  intros l Hl. destruct (H1 l Hl) as [Ha Hb].
  destruct (H2 l) as [Hc Hd]; [lia|]. split; congruence.
Qed.

(** A new dictionary of depth [n] whose entries refer to dictionaries of
    depth [n + 1] keeps the heap well formed. *)
Lemma heap_ok_alloc_dict lvl D (h : heap) (d : dict) n :
  heap_ok lvl D h → n ≤ D → NoDup d.*1 →
  (∀ k c, (k, VDict c) ∈ d → c < length h ∧ lvl c = S n) →
  heap_ok (lvl_at lvl (length h) n) D (h ++ [d]) ∧
  extends lvl h (lvl_at lvl (length h) n) (h ++ [d]).
Proof.
  intros Hok Hn Hnd Hrefs. split.
  - intros l dl Hl. unfold lvl_at. rewrite length_app. simpl.
    destruct (Nat.eqb_spec l (length h)) as [->|Hne].
    + rewrite lookup_app_r, Nat.sub_diag in Hl by lia. injection Hl as <-.
      split; [done|]. split; [done|].
      intros k c Hin. destruct (Hrefs k c Hin) as [Hc Hlc].
      destruct (Nat.eqb_spec c (length h)); [lia|]. split; [lia|done].
    + assert (l < length h) as Hlt.
      { apply lookup_lt_Some in Hl. rewrite length_app in Hl. simpl in Hl.
        lia. }
      rewrite lookup_app_l in Hl by done.
      destruct (Hok l dl Hl) as (Hle & Hnd' & Hrefs').
      split; [done|]. split; [done|].
      intros k c Hin. destruct (Hrefs' k c Hin) as [Hc Hlc].
      destruct (Nat.eqb_spec c (length h)); [lia|]. split; [lia|done].
  - split; [rewrite length_app; lia|].
    intros l Hl. unfold lvl_at.
    destruct (Nat.eqb_spec l (length h)); [lia|].
    by rewrite lookup_app_l.
Qed.

Lemma build_ok D (t : tree) :
  ∀ n lvl (h : heap),
    heap_ok lvl D h → n + depth t ≤ S D → built_ok D n lvl h (build t h).
Proof.
  induction t as [| | | |ts IH|items IH] using tree_nested_ind;
    intros n lvl h Hok Hdepth;
    try (exists lvl; simpl; split; [done|]; split; [apply extends_refl|done]).
  - (* a list display *)
    assert (Hlist : ∀ (h : heap) lvl, heap_ok lvl D h →
              ∃ lvl', heap_ok lvl' D (build_list build ts h).1 ∧
                      extends lvl h lvl' (build_list build ts h).1).
    { clear lvl h Hok. induction IH as [|t ts Ht _ IHts]; intros h lvl Hok.
      - exists lvl. split; [done|apply extends_refl].
      - simpl in Hdepth. simpl.
        destruct (Ht n lvl h Hok) as (lvl1 & Hok1 & Hext1 & _); [lia|].
        destruct (build t h) as [h1 v]. simpl in *.
        destruct IHts with (h := h1) (lvl := lvl1) as (lvl2 & Hok2 & Hext2);
          [lia|done|].
        destruct (build_list build ts h1) as [h2 vs]. simpl in *.
        exists lvl2. split; [done|]. by eapply extends_trans. }
    destruct (Hlist h lvl Hok) as (lvl' & Hok' & Hext').
    simpl. destruct (build_list build ts h) as [h' vs]. simpl in *.
    exists lvl'. split; [done|]. split; [done|]. intros c [=].
  - (* a dictionary display *)
    simpl in Hdepth.
    assert (Hitems : ∀ (h : heap) lvl (d : dict),
              heap_ok lvl D h → NoDup d.*1 →
              (∀ k c, (k, VDict c) ∈ d → c < length h ∧ lvl c = S n) →
              ∃ lvl', heap_ok lvl' D (build_items build items h d).1 ∧
                      extends lvl h lvl' (build_items build items h d).1 ∧
                      NoDup (build_items build items h d).2.*1 ∧
                      ∀ k c, (k, VDict c) ∈ (build_items build items h d).2 →
                             c < length (build_items build items h d).1 ∧
                             lvl' c = S n).
    { clear lvl h Hok.
      induction IH as [|[k t] items Ht _ IHitems]; intros h lvl d Hok Hnd Hd.
      - exists lvl. simpl. split; [done|]. split; [apply extends_refl|done].
      - simpl in Hdepth, Ht. simpl.
        destruct (Ht (S n) lvl h Hok) as (lvl1 & Hok1 & Hext1 & Hv1); [lia|].
        destruct (build t h) as [h1 v]. simpl in *.
        destruct IHitems with (h := h1) (lvl := lvl1) (d := dict_set k v d)
          as (lvl2 & Hok2 & Hext2 & Hnd2 & Hd2); [lia|done| | |].
        + by apply dict_set_NoDup.
        + intros k' c [[-> <-]|Hin]%dict_set_elem; [by apply Hv1|].
          destruct (Hd k' c Hin) as [Hc Hlc]. destruct Hext1 as [Hlen1 Hkeep1].
          destruct (Hkeep1 c Hc) as [Hl1 _]. split; [lia|congruence].
        + exists lvl2. split; [done|]. split; [by eapply extends_trans|done]. }
    destruct (Hitems h lvl []) as (lvl1 & Hok1 & Hext1 & Hnd1 & Hd1);
      [done|apply NoDup_nil_2| |].
    { intros k c Hin. by apply elem_of_nil in Hin. }
    simpl. destruct (build_items build items h []) as [h1 d1]. simpl in *.
    destruct (heap_ok_alloc_dict lvl1 D h1 d1 n) as [Hok2 Hext2];
      [done|lia|done|done|].
    exists (lvl_at lvl1 (length h1) n). simpl.
    split; [done|]. split; [by eapply extends_trans|].
    intros c [= <-]. rewrite length_app. simpl. split; [lia|].
    unfold lvl_at. by rewrite Nat.eqb_refl.
Qed.

Lemma store_ok_extends lvl D (h : heap) self lvl' (h' : heap) :
  store_ok lvl D h self → heap_ok lvl' D h' → extends lvl h lvl' h' →
  store_ok lvl' D h' self.
Proof.
  intros [_ Hsrcs] Hok' [Hlen Hkeep]. split; [done|].
  intros src Hin. destruct (Hsrcs src Hin) as [Hc Hl].
  destruct (Hkeep (content src) Hc) as [Hl' _]. split; [lia|congruence].
Qed.

Lemma new_manager_ok D : session_ok D new_manager.
Proof.
  exists (λ _, 0). apply store_okb_sound. reflexivity.
Qed.

Lemma add_ok D n lit p (s : session) :
  session_ok D s → depth lit ≤ D → session_ok D (add n lit p s).
Proof.
  destruct s as [h self]. intros [lvl Hok] Hdepth. unfold add.
  destruct (build_ok D lit 0 lvl h) as (lvl1 & Hok1 & Hext1 & Hv);
    [apply Hok|simpl; lia|].
  destruct (build lit h) as [h1 v]. simpl in *.
  pose proof (store_ok_extends lvl D h self lvl1 h1 Hok Hok1 Hext1) as Hs1.
  destruct (heap_ok_alloc_dict lvl1 D h1 [] 0) as [Hok2 Hext2];
    [done|lia|apply NoDup_nil_2| |].
  { intros k c Hin. by apply elem_of_nil in Hin. }
  pose proof (store_ok_extends lvl1 D h1 self _ _ Hs1 Hok2 Hext2)
    as [_ Hsrcs2].
  unfold add_source, alloc.
  destruct v as [| | | | |c]; try (by exists lvl1).
  exists (lvl_at lvl1 (length h1) 0). split; [done|]. simpl.
  intros src [Hin|Hin]%elem_of_app; [by apply Hsrcs2|].
  apply list_elem_of_singleton in Hin as ->. simpl.
  destruct (Hv c eq_refl) as [Hc Hlc]. destruct Hext2 as [Hlen2 Hkeep2].
  destruct (Hkeep2 c Hc) as [Hl2 _]. split; [lia|congruence].
Qed.

Lemma merge_ok D fuel (s : session) :
  session_ok D s → D < fuel →
  ∃ s' m, merge fuel s = Some (s', Ok m) ∧ session_ok D s'.
Proof.
  destruct s as [h self]. intros [lvl Hok] Hfuel. unfold merge.
  destruct (merge_contexts_spec lvl D fuel h self Hok Hfuel)
    as (h' & d' & -> & _ & Hok' & _).
  eexists _, _. split; [done|]. by eexists.
Qed.

Lemma get_ok D fuel key default (s : session) :
  session_ok D s → D < fuel →
  ∃ s' r, get fuel key default s = Some (s', r) ∧ session_ok D s'.
Proof.
  destruct s as [h self]. intros [lvl Hok] Hfuel. unfold get, get_context.
  destruct (context_is_empty h self).
  - destruct (merge_contexts_spec lvl D fuel h self Hok Hfuel)
      as (h' & d' & -> & _ & Hok' & _).
    destruct key; (eexists _, _; split; [done|by eexists]).
  - destruct key; (eexists _, _; split; [done|by eexists]).
Qed.

Lemma remove_ok D n (s : session) : session_ok D s → session_ok D (remove n s).
Proof.
  destruct s as [h self]. intros [lvl [Hok Hsrcs]]. simpl in Hok, Hsrcs.
  unfold remove, remove_source. simpl. exists (lvl_fresh lvl (length h)).
  split; [by apply heap_ok_alloc|].
  simpl. intros src [_ Hin]%list_elem_of_filter.
  destruct (Hsrcs src Hin) as [Hc Hl]. rewrite length_app. simpl.
  unfold lvl_fresh, lvl_at. destruct (Nat.eqb_spec (content src) (length h)); [lia|].
  split; [lia|done].
Qed.

(** Whatever calls are made on a new manager, with literals as contents and
    a recursion budget above their nesting depth, every call ends within
    the budget and the store is well formed afterwards. *)
Lemma run_ok D fuel (cs : list call) :
  script_depth cs ≤ D → D < fuel →
  ∀ s, session_ok D s → ∃ s', run fuel cs s = Some s' ∧ session_ok D s'.
Proof.
  intros Hdepth Hfuel. induction cs as [|c cs IH]; intros s Hs.
  - by exists s.
  - simpl in Hdepth. unfold run. cbn [for_each].
    assert (∃ s1, do_call fuel c s = Some s1 ∧ session_ok D s1)
      as (s1 & -> & Hs1).
    { destruct c as [n lit p| |key default|n]; simpl in *.
      - eexists. split; [done|]. apply add_ok; [done|lia].
      - destruct (merge_ok D fuel s Hs Hfuel) as (s' & m & -> & Hs').
        by exists s'.
      - destruct (get_ok D fuel key default s Hs Hfuel) as (s' & r & -> & Hs').
        by exists s'.
      - eexists. split; [done|]. by apply remove_ok. }
    apply IH; [lia|done].
Qed.

(** ** The tests of the repository *)

Example split_dot_segments :
  split_dot "a.b..c" = ["a"; "b"; ""; "c"] ∧ split_dot "" = [""].
Proof. split; reflexivity. Qed.

(** tests/core/test_context.py, [test_merge_contexts]: the assertion
    [merged["key"] == "low"] holds. *)
Example test_merge_contexts_low :
  merged_view 4 test_low_high = Some (TDict [("key", TStr "low")]).
Proof. reflexivity. Qed.

(** tests/core/test_context.py, [test_get_context]: both assertions hold. *)
Example test_get_context_values :
  ∃ s1 m s2 s3,
    merge 4 test_user = Some (s1, Ok m) ∧
    get 4 (Some "user.name") VNone s1 = Some (s2, Ok (VStr "Test")) ∧
    get 4 (Some "nonexistent") (VStr "default") s2
      = Some (s3, Ok (VStr "default")).
Proof. eexists _, _, _, _. repeat split; reflexivity. Qed.

(** * The claims *)

(** ** Priority *)

(** C1.  The claim is that the fragment of strictly higher priority wins a
    shared scalar key, in whatever order the two were added.  The code sorts
    highest first and lets each later fragment overwrite, so the LOWER
    priority wins: with A = {"k": "A"} at priority 10 and B = {"k": "B"} at
    priority 1, added in either order, the merged view is {"k": "B"}. *)
Theorem merge_lower_priority_wins :
  merged_view 4 prio_A_then_B = Some (TDict [("k", TStr "B")]) ∧
  merged_view 4 prio_B_then_A = Some (TDict [("k", TStr "B")]).
Proof. split; reflexivity. Qed.

(** C2.  The claim is that a scalar of higher priority replaces a mapping of
    lower priority: {"a": {"b": 1}} at priority 0 and {"a": 5} at priority
    10 should merge to {"a": 5}.  The code folds the higher priority in
    first, so the mapping replaces the scalar: the merged view is
    {"a": {"b": 1}}, which is not equal to {"a": 5}. *)
Theorem merge_scalar_replaced_by_mapping :
  merged_view 4 mapping_then_scalar
    = Some (TDict [("a", TDict [("b", TInt 1)])]) ∧
  tree_eqb (TDict [("a", TDict [("b", TInt 1)])]) (TDict [("a", TInt 5)])
    = false.
Proof. split; reflexivity. Qed.

(** The tie rule as far as the code keeps it.  In every well-formed store,
    take two fragments A and B of equal priority, A added before B, that
    both bind a key at the top of their content to a value that is not a
    mapping.  When B is the last added fragment that has the key, and
    whatever other fragment has it is of the same priority,
    [merge_contexts] returns, and in its result the key has the value of
    B. *)
Lemma equal_priority_later_wins lvl D fuel (h : heap) self
    l1 A l2 B l3 k va vb :
  store_ok lvl D h self → D < fuel →
  sources self = l1 ++ A :: l2 ++ B :: l3 →
  priority A = priority B →
  binds h A k va → isinstance_dict va = false →
  binds h B k vb → isinstance_dict vb = false →
  (∀ src, src ∈ l1 ++ l2 → lacks h src k ∨ priority src = priority B) →
  (∀ src, src ∈ l3 → lacks h src k) →
  ∃ h' self' m d,
    merge_contexts fuel h self = Some (h', self', Ok m) ∧
    h' !! m = Some d ∧ dict_get k d = Some vb.
Proof.
  intros Hok Hfuel Hsrcs Hprio _ _ HB Hvb Hbefore Hafter.
  destruct (merge_contexts_spec lvl D fuel h self Hok Hfuel)
    as (h' & d' & Hrun & Hd' & _ & _ & Hscalar).
  destruct (sorted_sources_stable (l1 ++ A :: l2) l3 B)
    as (pre & post & Hsorted & Hpost).
  exists h', {| sources := sources self; context := length h |}, (length h), d'.
  split; [done|]. split; [done|].
  rewrite <- app_assoc in Hsorted. simpl in Hsorted.
  apply (Hscalar k vb pre B post); [by rewrite Hsrcs|done|done|].
  intros src [[Hin Hlt]|Hin]%Hpost; [|auto].
  apply elem_of_app in Hin as [Hin|Hin].
  - destruct (Hbefore src) as [Hl|Heq]; [apply elem_of_app; auto|done|lia].
  - apply elem_of_cons in Hin as [->|Hin]; [lia|].
    destruct (Hbefore src) as [Hl|Heq]; [apply elem_of_app; auto|done|lia].
Qed.

(** The instance of the specification: A = {"k": "A"} then B = {"k": "B"},
    both at priority 5, merge to "k" bound to "B". *)
Lemma equal_priority_later_wins_witness :
  ∃ h' self' m d,
    merge_contexts 1 (fst tie_A_then_B) (snd tie_A_then_B)
      = Some (h', self', Ok m) ∧
    h' !! m = Some d ∧ dict_get "k" d = Some (VStr "B").
Proof.
  apply (equal_priority_later_wins (λ _, 0) 0 1
           (fst tie_A_then_B) (snd tie_A_then_B)
           [] (mkContextSource "A" 1 5 "unknown" 2)
           [] (mkContextSource "B" 3 5 "unknown" 4) []
           "k" (VStr "A") (VStr "B")).
  - apply store_okb_sound. reflexivity.
  - lia.
  - reflexivity.
  - reflexivity.
  - eexists. split; reflexivity.
  - reflexivity.
  - eexists. split; reflexivity.
  - reflexivity.
  - intros src Hin. simpl in Hin. exfalso. eapply elem_of_nil. exact Hin.
  - intros src Hin. exfalso. eapply elem_of_nil. exact Hin.
Defined.

(** C3.  With A = {"k": "A"} and B = {"k": "B"}, both at priority 5 and
    added in that order, the later of the two should win the key whatever
    else the store holds.  With a third fragment C = {"k": "C"} at
    priority 1, added after or before the two, the code binds "k" to "C":
    the tie is settled as the claim says, and then lost to the lowest
    priority, which is folded in last. *)
Theorem equal_priority_lost_to_lower_priority :
  merged_view 4 tie_A_then_B = Some (TDict [("k", TStr "B")]) ∧
  merged_view 4 tie_then_lower = Some (TDict [("k", TStr "C")]) ∧
  merged_view 4 lower_then_tie = Some (TDict [("k", TStr "C")]) ∧
  tree_eqb (TDict [("k", TStr "C")]) (TDict [("k", TStr "B")]) = false.
Proof. repeat split; reflexivity. Qed.

(** ** Aliasing *)

(** C4.  The claim is that [merge_contexts] never changes the stored content
    of a fragment.  The accumulator takes the nested dictionary of the first
    fragment by reference and the next fragment is merged into that very
    object: fragment "hi", created with {"app": {"name": "Y"}}, holds
    {"app": {"name": "X", "version": "1.0"}} after one call. *)
Theorem merge_mutates_fragment_content :
  fragment_content nested_hi_then_lo 0
    = Some (TDict [("app", TDict [("name", TStr "Y")])]) ∧
  ∃ s m,
    merge 4 nested_hi_then_lo = Some (s, Ok m) ∧
    fragment_content s 0
      = Some (TDict [("app", TDict [("name", TStr "X");
                                    ("version", TStr "1.0")])]).
Proof. split; [reflexivity|]. eexists _, _. split; reflexivity. Qed.

(** C7.  The claim is that two calls of [merge_contexts] with no change of
    the fragment list in between return equal values.  The first call
    rewrites nested dictionaries of the fragments, so the second call starts
    from other contents: on four fragments it returns
    {"a": {"k": {"z": 1}}} the first time and
    {"a": {"k": {"z": 1, "y": 2}}} the second time, and the dictionary the
    first call returned has become the second value as well. *)
Theorem merge_twice_differs :
  ∃ s1 m1 s2 m2 t1 t2,
    merge 4 four_fragments = Some (s1, Ok m1) ∧
    observe s1 (VDict m1) = Some t1 ∧
    merge 4 s1 = Some (s2, Ok m2) ∧
    observe s2 (VDict m2) = Some t2 ∧
    sources (snd s1) = sources (snd four_fragments) ∧
    t1 = TDict [("a", TDict [("k", TDict [("z", TInt 1)])])] ∧
    t2 = TDict [("a", TDict [("k", TDict [("z", TInt 1); ("y", TInt 2)])])] ∧
    tree_eqb t1 t2 = false ∧
    observe s2 (VDict m1) = Some t2.
Proof. eexists _, _, _, _, _, _. repeat split; reflexivity. Qed.

(** ** The cached view *)

(** C5.  The claim is that [add_source] invalidates the cached view, so that
    a later [get_context] sees every fragment added so far.  [add_source]
    leaves [self.context] alone and [get_context] merges only while that
    mapping is empty: after a first [get_context()], a fragment {"j": 2} is
    added, and [get_context("j", "stale")] answers "stale" from the old
    view, although merging the two fragments gives {"k": 1, "j": 2}. *)
Theorem get_context_serves_stale_view :
  ∃ s1 view s2,
    after_first_get = Some (s1, Ok view) ∧
    observe s1 view = Some (TDict [("k", TInt 1)]) ∧
    s2 = add "b" (TDict [("j", TInt 2)]) 0 s1 ∧
    (∃ s3, get 4 (Some "j") (VStr "stale") s2 = Some (s3, Ok (VStr "stale"))) ∧
    merged_view 4 s2 = Some (TDict [("k", TInt 1); ("j", TInt 2)]).
Proof.
  eexists _, _, _. split; [reflexivity|]. split; [reflexivity|].
  split; [reflexivity|]. split; [|reflexivity].
  eexists. reflexivity.
Qed.

(** C6.  With [remove_source] as the specification words it, the scenario of
    the claim runs as follows on the code: after adding "s" = {"theme":
    "dark"} at priority 0 and "override" = {"theme": "light"} at priority 10,
    [get_context("theme")] is "dark", not "light" as the claim says, because
    the lower priority is folded in last; after [remove_source("override")]
    only fragment "s" is left and [get_context("theme")] is "dark". *)
Theorem remove_source_scenario :
  ∃ s1 s2 s3,
    get 4 (Some "theme") VNone theme_sources = Some (s1, Ok (VStr "dark")) ∧
    s2 = remove "override" s1 ∧
    name <$> sources (snd s2) = ["s"] ∧
    get 4 (Some "theme") VNone s2 = Some (s3, Ok (VStr "dark")).
Proof. eexists _, _, _. repeat split; reflexivity. Qed.

(** ** Dotted paths *)

(** C8.  [get_context] can raise.  Take s = {"k": {"new": 1}} and the
    fragments {"a": {"k": s}} at priority 10 and {"a": s} at priority 0,
    which share [s]; [add_source] accepts both.  The first [get_context]
    merges them before its [try]: the dictionary {"k": s} of the first
    fragment is put in the accumulator as it is, [s] is merged into it, and
    while the loop reads the items of [s] the recursive call adds the key
    "new" to [s] itself.  The view notices and [RuntimeError] leaves
    [get_context], whatever the key and the default. *)
Theorem get_context_raises_on_shared_dictionary :
  ∃ s, shared_fragments = Ok s ∧
       ∀ key default,
         ∃ s', get 1000 key default s
               = Some (s', Raise (RuntimeError
                                    "dictionary changed size during iteration")).
Proof.
  eexists. split; [reflexivity|].
  intros key default. eexists. unfold get, get_context.
  cbn [context_is_empty].
  match goal with
  | |- context [merge_contexts ?f ?h ?m] =>
      let r := eval vm_compute in (merge_contexts f h m) in
      change (merge_contexts f h m) with r
  end.
  reflexivity.
Qed.

(** C9, as stated, fails for the empty path string: [get_context("")]
    splits it into the one segment "" and looks that key up, so on a store
    whose merged mapping is {"k": 1} it returns the default, not the
    mapping. *)
Lemma get_context_empty_string_counterexample :
  merged_view 4 one_key_store = Some (TDict [("k", TInt 1)]) ∧
  ∃ s, get 4 (Some "") (VStr "fallback") one_key_store
       = Some (s, Ok (VStr "fallback")).
Proof. split; [reflexivity|]. eexists. reflexivity. Qed.

(** C9, amended.  For every well-formed store, [get_context] with the key
    omitted returns the full mapping held in [self.context], which is the
    result of [merge_contexts] when the cached mapping was empty and the
    cached mapping otherwise; it is never the default.  The empty string is
    not an omitted key: it is looked up as the key "" of that mapping and
    gives the default when the mapping has no such key. *)
Theorem get_context_omitted_key lvl D fuel (h : heap) self default :
  store_ok lvl D h self → D < fuel →
  (∃ h' self',
     get_context fuel None default h self
       = Some (h', self', Ok (VDict (context self'))) ∧
     if context_is_empty h self
     then merge_contexts fuel h self = Some (h', self', Ok (context self'))
     else (h', self') = (h, self)) ∧
  (∃ h' self' v,
     get_context fuel (Some "") default h self = Some (h', self', Ok v) ∧
     v = match resolve h' [""] (VDict (context self')) with
         | Some w => w
         | None => default
         end).
Proof.
  intros Hok Hfuel. split.
  - unfold get_context. destruct (context_is_empty h self).
    + destruct (merge_contexts_spec lvl D fuel h self Hok Hfuel)
        as (h' & d' & -> & _).
      by exists h', {| sources := sources self; context := length h |}.
    + by exists h, self.
  - apply (get_context_key_spec lvl D fuel h self "" default Hok Hfuel).
Qed.

Lemma get_context_omitted_key_witness :
  ∃ h' self',
    get_context 1 None (VStr "fallback") (fst one_key_store) (snd one_key_store)
      = Some (h', self', Ok (VDict (context self'))) ∧
    reify 3 h' (VDict (context self')) = Some (TDict [("k", TInt 1)]).
Proof.
  destruct (get_context_omitted_key (λ _, 0) 0 1
              (fst one_key_store) (snd one_key_store) (VStr "fallback"))
    as [(h' & self' & Hrun & _) _].
  - apply store_okb_sound. reflexivity.
  - lia.
  - exists h', self'. split; [exact Hrun|].
    vm_compute in Hrun. injection Hrun as <- <-. reflexivity.
Defined.

(** ** Errors of [load_from_file] *)

(** C10, as stated, fails: the unsupported extension and the malformed file
    do not raise kinds of their own.  Both leave [load_from_file] as a
    [ValueError] built by the same [except] clause. *)
Lemma load_from_file_kinds_counterexample :
  ∃ e1 e2,
    load_from_file fs_example "notes.txt" 0 (fst new_manager) (snd new_manager)
      = Raise e1 ∧
    load_from_file fs_example "bad.json" 0 (fst new_manager) (snd new_manager)
      = Raise e2 ∧
    kind_of e1 = KValueError ∧ kind_of e2 = KValueError.
Proof. eexists _, _. repeat split; reflexivity. Qed.

(** C10, amended.  [load_from_file] raises [FileNotFoundError] when the path
    does not exist.  In every other failing case it raises [ValueError] with
    the message "Failed to load context from <path>: " followed by the text
    of the underlying error: the unsupported suffix, the exception of the
    parser, or the validation error for a top-level value that is not a
    mapping.  The last three share one kind and differ by that text only. *)
Theorem load_from_file_errors fs p prio (h : heap) self :
  (path_exists fs p = false →
   load_from_file fs p prio h self
     = Raise (FileNotFoundError ("Context file not found: " +:+ p))) ∧
  (path_exists fs p = true → selected_loader fs p = None →
   load_from_file fs p prio h self
     = Raise (load_error p ("Unsupported file format: "
                            +:+ path_suffix fs p))) ∧
  (∀ loader cause,
     path_exists fs p = true → selected_loader fs p = Some loader →
     loader h = Raise cause →
     load_from_file fs p prio h self = Raise (load_error p (exn_str cause))) ∧
  (∀ loader h1 v,
     path_exists fs p = true → selected_loader fs p = Some loader →
     loader h = Ok (h1, v) → isinstance_dict v = false →
     ∃ detail,
       load_from_file fs p prio h self = Raise (load_error p detail) ∧
       detail = exn_str
                  (ValidationError
                     "content: Input should be a valid dictionary")).
Proof.
  unfold load_from_file, selected_loader, load_error.
  split; [|split; [|split]].
  - intros ->. reflexivity.
  - intros -> Hsel. cbn [negb].
    destruct (str_in (str_lower (path_suffix fs p)) [".json"]); [done|].
    destruct (str_in (str_lower (path_suffix fs p)) [".yaml"; ".yml"]);
      done.
  - intros loader cause -> Hsel Hload. cbn [negb].
    destruct (str_in (str_lower (path_suffix fs p)) [".json"]).
    + injection Hsel as <-. by rewrite Hload.
    + destruct (str_in (str_lower (path_suffix fs p)) [".yaml"; ".yml"]);
        [|done].
      injection Hsel as <-. by rewrite Hload.
  - intros loader h1 v -> Hsel Hload Hv. eexists. split; [|reflexivity].
    cbn [negb].
    destruct (str_in (str_lower (path_suffix fs p)) [".json"]).
    + injection Hsel as <-. rewrite Hload. by destruct v.
    + destruct (str_in (str_lower (path_suffix fs p)) [".yaml"; ".yml"]);
        [|done].
      injection Hsel as <-. rewrite Hload. by destruct v.
Qed.

Lemma load_from_file_errors_witness :
  load_from_file fs_example "missing.json" 0 (fst new_manager) (snd new_manager)
    = Raise (FileNotFoundError "Context file not found: missing.json") ∧
  load_from_file fs_example "notes.txt" 0 (fst new_manager) (snd new_manager)
    = Raise (load_error "notes.txt" "Unsupported file format: .txt") ∧
  load_from_file fs_example "bad.json" 0 (fst new_manager) (snd new_manager)
    = Raise (load_error "bad.json"
                        "Expecting value: line 1 column 1 (char 0)") ∧
  load_from_file fs_example "list.json" 0 (fst new_manager) (snd new_manager)
    = Raise (load_error "list.json"
                        "content: Input should be a valid dictionary").
Proof.
  split; [|split; [|split]].
  - apply (load_from_file_errors fs_example "missing.json" 0
             (fst new_manager) (snd new_manager)).
    reflexivity.
  - apply (load_from_file_errors fs_example "notes.txt" 0
             (fst new_manager) (snd new_manager)); reflexivity.
  - destruct (load_from_file_errors fs_example "bad.json" 0
                (fst new_manager) (snd new_manager)) as (_ & _ & Hparse & _).
    apply (Hparse (json_load fs_example "bad.json")
             (ParserError "Expecting value: line 1 column 1 (char 0)"));
      reflexivity.
  - destruct (load_from_file_errors fs_example "list.json" 0
                (fst new_manager) (snd new_manager)) as (_ & _ & _ & Hlist).
    destruct (Hlist (json_load fs_example "list.json")
                (fst new_manager) (VList [VInt 1; VInt 2]))
      as (detail & Hrun & ->); [reflexivity..|].
    exact Hrun.
Defined.

(** * Further properties *)

(** ** The top of the merged view *)

Lemma merged_top_ext (h1 h2 : heap) k o (srcs : list ContextSource) :
  (∀ src, src ∈ srcs → h1 !! content src = h2 !! content src) →
  merged_top h1 k o srcs = merged_top h2 k o srcs.
Proof.
  revert o. induction srcs as [|x srcs IH]; intros o Hsame; [done|].
  assert (top_binding h1 k x = top_binding h2 k x) as Hx.
  { unfold top_binding. rewrite (Hsame x); [done|left]. }
  unfold merged_top in *. simpl. rewrite Hx. apply IH.
  intros src Hin. apply Hsame. by right.
Qed.

Section TopOfMerge.
Variable lvl : loc → nat.
Variable D : nat.

Lemma merge_item_top rec n t (h : heap) d key value :
  merges_at lvl D (S n) rec →
  heap_ok lvl D h → h !! t = Some d → lvl t = n →
  (∀ l, value = VDict l → l < length h ∧ lvl l = S n) →
  ∃ h1 d1,
    merge_item rec t h (key, value) = Some (h1, Ok tt) ∧
    merge_post lvl D t h h1 ∧ h1 !! t = Some d1 ∧
    dict_get key d1 = merged_binding (dict_get key d) (Some value) ∧
    ∀ k, k ≠ key → dict_get k d1 = dict_get k d.
Proof.
  intros Hrec Hok Ht Hlvl Hval.
  assert (Hwrite :
    (∀ t' s', dict_get key d = Some (VDict t') → value = VDict s' → False) →
    ∃ h1 d1,
      Some (<[t := dict_set key value d]> h, Ok tt) = Some (h1, Ok tt) ∧
      merge_post lvl D t h h1 ∧ h1 !! t = Some d1 ∧
      dict_get key d1 = merged_binding (dict_get key d) (Some value) ∧
      ∀ k, k ≠ key → dict_get k d1 = dict_get k d).
  { intros Hno.
    exists (<[t := dict_set key value d]> h), (dict_set key value d).
    split; [done|]. split; [|split; [|split]].
    - split; [|split].
      + eapply heap_ok_insert; [done..|].
        destruct (Hok t d Ht) as [_ [Hnd_d Hrefs_d]]. split.
        * by apply dict_set_NoDup.
        * intros k l [[-> <-]|Hin]%dict_set_elem.
          -- rewrite Hlvl. by apply Hval.
          -- by apply Hrefs_d with k.
      + apply length_insert.
      + intros l Hne _. by apply list_lookup_insert_ne.
    - apply list_lookup_insert_eq. by eapply lookup_lt_Some.
    - rewrite dict_get_set_eq. simpl.
      destruct (dict_get key d) as [[| | | | |t']|]; try done.
      destruct value as [| | | | |s']; try done.
      exfalso. by eapply Hno.
    - intros k Hne. apply dict_get_set_ne. congruence. }
  unfold merge_item. rewrite Ht.
  destruct (dict_get key d) as [[| | | | |t']|] eqn:Hget;
    try (apply Hwrite; intros ? ? [=]).
  destruct value as [| | | | |s']; try (apply Hwrite; intros ? ? _ [=]).
  destruct (Hok t d Ht) as [_ [_ Hrefs_d]].
  destruct (Hrefs_d key t') as [Ht' Hlt']; [by apply dict_get_Some_elem|].
  destruct (Hval s' eq_refl) as [Hs' Hls'].
  destruct (Hrec t' s' h) as (h1 & Hrun & Hok1 & Hlen1 & Hframe1);
    [done|done|done|congruence|done|].
  assert (h1 !! t = h !! t) as Hsame.
  { apply Hframe1; [intros ->|]; lia. }
  exists h1, d. split; [done|]. split; [|split; [|split]].
  - split; [done|]. split; [done|].
    intros l Hne Hl. apply Hframe1; [intros ->|]; lia.
  - by rewrite Hsame.
  - by rewrite Hget.
  - done.
Qed.

Lemma merge_items_top rec n :
  merges_at lvl D (S n) rec →
  ∀ (items : dict) t (h : heap) d,
    heap_ok lvl D h → h !! t = Some d → lvl t = n →
    NoDup items.*1 →
    (∀ k l, (k, VDict l) ∈ items → l < length h ∧ lvl l = S n) →
    ∃ h' d',
      for_in (merge_item rec t) items h = Some (h', Ok tt) ∧
      merge_post lvl D t h h' ∧ h' !! t = Some d' ∧
      ∀ k, dict_get k d' = merged_binding (dict_get k d) (dict_get k items).
Proof.
  intros Hrec items. induction items as [|[key value] items IH];
    intros t h d Hok Ht Hlvl Hnd Hrefs.
  - exists h, d. simpl. split; [done|]. split; [by split|]. done.
  - simpl in Hnd. apply NoDup_cons in Hnd as [Hkey Hnd].
    destruct (merge_item_top rec n t h d key value)
      as (h1 & d1 & Hrun1 & (Hok1 & Hlen1 & Hframe1) & Ht1 & Hk1 & Hother1);
      [done..| |].
    { intros l ->. apply Hrefs with key. left. }
    destruct (IH t h1 d1) as (h' & d' & Hrun & (Hok' & Hlen' & Hframe')
                              & Ht' & Htop); [done..| |].
    { intros k l Hin. rewrite Hlen1. apply Hrefs with k. by right. }
    exists h', d'. cbn [for_in]. rewrite Hrun1.
    split; [done|]. split; [|split; [done|]].
    + split; [done|]. split; [congruence|].
      intros l Hne Hl. rewrite Hframe', Hframe1; done.
    + intros k. rewrite Htop. simpl.
      destruct (String.eqb_spec k key) as [->|Hne].
      * apply dict_get_None in Hkey. rewrite Hkey. simpl. done.
      * by rewrite Hother1.
Qed.

Lemma deep_merge_top fuel t s (h : heap) d items :
  heap_ok lvl D h → h !! t = Some d → h !! s = Some items →
  lvl t = lvl s → D < fuel + lvl s →
  ∃ h' d',
    _deep_merge fuel t s h = Some (h', Ok tt) ∧
    merge_post lvl D t h h' ∧ h' !! t = Some d' ∧
    ∀ k, dict_get k d' = merged_binding (dict_get k d) (dict_get k items).
Proof.
  intros Hok Ht Hs Hlvl Hfuel.
  destruct (Hok s items Hs) as [Hle [Hnd Hrefs]].
  destruct fuel as [|fuel]; [lia|].
  assert (Hrec : merges_at lvl D (S (lvl t)) (_deep_merge fuel)).
  { apply deep_merge_merges_at. lia. }
  destruct (merge_items_top (_deep_merge fuel) (lvl t)) with
    (items := items) (t := t) (h := h) (d := d)
    as (h' & d' & Hrun & Hpost & Ht' & Htop); try done.
  { intros k l Hin. rewrite Hlvl. by apply Hrefs with k. }
  exists h', d'.
  rewrite (deep_merge_for_in lvl D fuel t s h items)
    by (done || by eapply lookup_lt_Some).
  done.
Qed.

Lemma merge_sources_top fuel r (srcs : list ContextSource) :
  D < fuel → lvl r = 0 →
  ∀ (h : heap) d,
    heap_ok lvl D h → h !! r = Some d →
    (∀ src, src ∈ srcs →
            content src < length h ∧ lvl (content src) = 0 ∧ content src ≠ r) →
    ∃ h' d',
      for_in (λ h src, _deep_merge fuel r (content src) h) srcs h
      = Some (h', Ok tt) ∧
      merge_post lvl D r h h' ∧ h' !! r = Some d' ∧
      ∀ k, dict_get k d' = merged_top h k (dict_get k d) srcs.
Proof.
  intros Hfuel Hr. induction srcs as [|x srcs IH]; intros h d Hok Hd Hsrcs.
  - exists h, d. simpl. split; [done|]. split; [by split|]. done.
  - destruct (Hsrcs x) as (Hx & Hlx & Hxr); [left|].
    destruct (lookup_lt_is_Some_2 h (content x) Hx) as [items Hitems].
    destruct (deep_merge_top fuel r (content x) h d items)
      as (h1 & d1 & Hrun1 & Hpost1 & Hd1 & Htop1);
      [done|done|done|congruence|lia|].
    assert (Hlen1 : length h1 = length h) by apply Hpost1.
    assert (Hsame : ∀ src, src ∈ x :: srcs →
                           h1 !! content src = h !! content src).
    { intros src Hin. destruct (Hsrcs src Hin) as (_ & Hl & Hne).
      by eapply lacks_binds_frame. }
    destruct (IH h1 d1) as (h' & d' & Hrun & Hpost & Hd' & Htop).
    { apply Hpost1. }
    { done. }
    { intros src Hin. rewrite Hlen1. apply Hsrcs. by right. }
    exists h', d'. cbn [for_in]. rewrite Hrun1.
    split; [done|]. split; [|split; [done|]].
    + destruct Hpost1 as (_ & _ & Hf1). destruct Hpost as (Hok' & Hlen' & Hf).
      split; [done|]. split; [congruence|].
      intros l Hne Hl. rewrite Hf, Hf1; done.
    + intros k. rewrite Htop, Htop1.
      rewrite (merged_top_ext h1 h) by (intros src Hin; apply Hsame; by right).
      assert (top_binding h k x = dict_get k items) as Htx.
      { unfold top_binding. by rewrite Hitems. }
      unfold merged_top. simpl. by rewrite Htx.
Qed.
End TopOfMerge.

(** ** The order of the merge *)

Lemma insert_desc_sorted x (s : list ContextSource) :
  desc_sorted s → desc_sorted (insert_desc x s).
Proof.
  unfold desc_sorted. induction s as [|z s IH]; simpl; intros Hs.
  - constructor; [constructor|constructor].
  - apply StronglySorted_inv in Hs as [Hs Hz].
    destruct (Z.leb_spec (priority z) (priority x)).
    + constructor; [by constructor|]. constructor; [done|].
      eapply Forall_impl; [exact Hz|]. simpl. intros y Hy. lia.
    + constructor; [auto|]. apply Forall_forall.
      intros y [->|Hy]%insert_desc_elem; [lia|].
      rewrite Forall_forall in Hz. auto.
Qed.

Lemma sorted_sources_sorted (l : list ContextSource) :
  desc_sorted (sorted_sources l).
Proof.
  induction l as [|x l IH]; simpl; [constructor|].
  by apply insert_desc_sorted.
Qed.

Lemma sorted_sources_perm (l : list ContextSource) : sorted_sources l ≡ₚ l.
Proof.
  assert (Hins : ∀ x s, insert_desc x s ≡ₚ x :: s).
  { intros x s. induction s as [|z s IH]; simpl; [done|].
    destruct (priority z <=? priority x)%Z; [done|].
    rewrite IH. apply Permutation_swap. }
  induction l as [|x l IH]; simpl; [done|]. by rewrite Hins, IH.
Qed.

(** Where a fragment lands in a sorted list: after the strictly higher
    priorities, before everything else. *)
Lemma insert_desc_place B (s : list ContextSource) :
  desc_sorted s →
  ∃ pre post,
    insert_desc B s = pre ++ B :: post ∧ s = pre ++ post ∧
    (∀ x, x ∈ pre → (priority B < priority x)%Z) ∧
    (∀ x, x ∈ post → (priority x ≤ priority B)%Z).
Proof.
  unfold desc_sorted. induction s as [|z s IH]; simpl; intros Hs.
  - exists nil, nil. repeat split; try done; intros x Hx;
      by apply elem_of_nil in Hx.
  - apply StronglySorted_inv in Hs as [Hs Hz].
    destruct (Z.leb_spec (priority z) (priority B)).
    + exists nil, (z :: s). repeat split; try done.
      * intros x Hx. by apply elem_of_nil in Hx.
      * rewrite Forall_forall in Hz.
        intros x [->|Hx]%elem_of_cons; [done|]. specialize (Hz x Hx). lia.
    + destruct (IH Hs) as (pre & post & -> & -> & Hpre & Hpost).
      exists (z :: pre), post. repeat split; try done.
      intros x [->|Hx]%elem_of_cons; [done|auto].
Qed.

Lemma insert_desc_order y B (pre post : list ContextSource) :
  (∀ x, x ∈ pre → (priority B ≤ priority x)%Z) →
  ∃ pre' post',
    insert_desc y (pre ++ B :: post) = pre' ++ B :: post' ∧
    (∀ x, x ∈ pre' → (x = y ∧ (priority B ≤ priority y)%Z) ∨ x ∈ pre) ∧
    (∀ x, x ∈ post' → (x = y ∧ (priority y < priority B)%Z) ∨ x ∈ post).
Proof.
  induction pre as [|z pre IH]; simpl; intros Hpre.
  - destruct (Z.leb_spec (priority B) (priority y)).
    + exists [y], post. split; [done|]. split; [|auto].
      intros x ->%list_elem_of_singleton. auto.
    + exists nil, (insert_desc y post). split; [done|]. split.
      * intros x Hx. by apply elem_of_nil in Hx.
      * intros x [->|Hx]%insert_desc_elem; auto.
  - destruct (Z.leb_spec (priority z) (priority y)).
    + exists (y :: z :: pre), post. split; [done|]. split; [|auto].
      intros x [->|Hx]%elem_of_cons; [|auto].
      left. split; [done|]. specialize (Hpre z). 
      assert (priority B ≤ priority z)%Z by (apply Hpre; left). lia.
    + destruct IH as (pre' & post' & -> & Hp1 & Hp2).
      { intros x Hx. apply Hpre. by right. }
      exists (z :: pre'), post'. split; [done|]. split; [|done].
      intros x [->|Hx]%elem_of_cons; [right; left|].
      destruct (Hp1 x Hx) as [?|?]; [auto|right; by right].
Qed.

(** The order [merge_contexts] folds in, around any fragment [B]: before
    it come the fragments added earlier whose priority is not lower and the
    fragments added later whose priority is strictly higher; all others come
    after it. *)
Lemma sorted_sources_order (l1 l3 : list ContextSource) B :
  ∃ pre post,
    sorted_sources (l1 ++ B :: l3) = pre ++ B :: post ∧
    (∀ x, x ∈ pre → (x ∈ l1 ∧ (priority B ≤ priority x)%Z) ∨
                    (x ∈ l3 ∧ (priority B < priority x)%Z)) ∧
    (∀ x, x ∈ post → (x ∈ l1 ∧ (priority x < priority B)%Z) ∨
                     (x ∈ l3 ∧ (priority x ≤ priority B)%Z)).
Proof.
  induction l1 as [|y l1 IH]; simpl.
  - destruct (insert_desc_place B (sorted_sources l3))
      as (pre & post & -> & Hs & Hpre & Hpost);
      [apply sorted_sources_sorted|].
    exists pre, post. split; [done|].
    split; intros x Hx; right; (split; [|auto]);
      apply sorted_sources_elem; rewrite Hs; apply elem_of_app; auto.
  - destruct IH as (pre & post & -> & Hpre & Hpost).
    destruct (insert_desc_order y B pre post) as (pre' & post' & -> & Hp1 & Hp2).
    { intros x [[_ ?]|[_ ?]]%Hpre; lia. }
    exists pre', post'. split; [done|]. split.
    + intros x [[-> Hle]|Hx]%Hp1.
      * left. split; [left|done].
      * destruct (Hpre x Hx) as [[Hin ?]|?]; [|by right].
        left. split; [by right|done].
    + intros x [[-> Hlt]|Hx]%Hp2.
      * left. split; [left|done].
      * destruct (Hpost x Hx) as [[Hin ?]|?]; [|by right].
        left. split; [by right|done].
Qed.

(** ** What [merge_contexts] binds at the top *)

(** The top of the merged view is settled by the tops of the fragments, in
    sorted order, and by nothing else. *)
Lemma merge_contexts_top lvl D fuel (h : heap) self :
  store_ok lvl D h self → D < fuel →
  ∃ h' d',
    merge_contexts fuel h self =
      Some (h', {| sources := sources self; context := length h |},
            Ok (length h)) ∧
    h' !! length h = Some d' ∧
    ∀ k, dict_get k d' = merged_top h k None (sorted_sources (sources self)).
Proof.
  intros [Hok Hsrcs] Hfuel. set (r := length h).
  assert (Hin_sorted : ∀ src, src ∈ sorted_sources (sources self) →
            content src < length (h ++ [[]]) ∧
            lvl_fresh lvl r (content src) = 0 ∧ content src ≠ r).
  { intros src Hin%sorted_sources_elem. destruct (Hsrcs src Hin) as [Hlt Hl].
    rewrite length_app. simpl. unfold lvl_fresh, lvl_at.
    destruct (Nat.eqb_spec (content src) r); subst r; [lia|].
    split; [lia|]. split; [done|lia]. }
  destruct (merge_sources_top (lvl_fresh lvl r) D fuel r
              (sorted_sources (sources self)))
    with (h := h ++ [[]]) (d := @nil (string * value))
    as (h' & d' & Hrun & _ & Hd' & Htop).
  - done.
  - unfold lvl_fresh, lvl_at. by rewrite Nat.eqb_refl.
  - by apply heap_ok_alloc.
  - subst r. rewrite lookup_app_r, Nat.sub_diag by lia. done.
  - done.
  - exists h', d'. unfold merge_contexts, alloc. fold r. rewrite Hrun.
    split; [done|]. split; [done|].
    intros k. rewrite Htop. simpl. apply merged_top_ext.
    intros src Hin%sorted_sources_elem. destruct (Hsrcs src Hin) as [Hlt _].
    by rewrite lookup_app_l.
Qed.

Lemma merged_top_app (h : heap) k o (a b : list ContextSource) :
  merged_top h k o (a ++ b) = merged_top h k (merged_top h k o a) b.
Proof. unfold merged_top. apply foldl_app. Qed.

Lemma merged_top_cons (h : heap) k o x (srcs : list ContextSource) :
  merged_top h k o (x :: srcs)
  = merged_top h k (merged_binding o (top_binding h k x)) srcs.
Proof. reflexivity. Qed.

Lemma merged_top_lacks (h : heap) k o (srcs : list ContextSource) :
  (∀ src, src ∈ srcs → top_binding h k src = None) →
  merged_top h k o srcs = o.
Proof.
  revert o. induction srcs as [|x srcs IH]; intros o Hl; [done|].
  unfold merged_top in *. simpl. rewrite (Hl x) by left. simpl.
  apply IH. intros src Hin. apply Hl. by right.
Qed.

Lemma merged_top_dicts (h : heap) k a (srcs : list ContextSource) :
  (∀ src, src ∈ srcs → binds_dict h k src = true ∨ top_binding h k src = None) →
  merged_top h k (Some (VDict a)) srcs = Some (VDict a).
Proof.
  induction srcs as [|x srcs IH]; intros Hl; [done|].
  unfold merged_top in *. simpl.
  assert (merged_binding (Some (VDict a)) (top_binding h k x)
          = Some (VDict a)) as ->.
  { destruct (Hl x) as [Hd| ->]; [left| |done].
    unfold binds_dict in Hd.
    destruct (top_binding h k x) as [[| | | | |l]|]; done. }
  apply IH. intros src Hin. apply Hl. by right.
Qed.

Lemma merged_top_is_Some (h : heap) k o (srcs : list ContextSource) :
  is_Some (merged_top h k o srcs) ↔
  is_Some o ∨ ∃ src, src ∈ srcs ∧ is_Some (top_binding h k src).
Proof.
  revert o. induction srcs as [|x srcs IH]; intros o.
  - simpl. split; [auto|]. intros [?|(src & Hin & _)]; [done|].
    by apply elem_of_nil in Hin.
  - unfold merged_top in *. simpl. rewrite IH.
    assert (is_Some (merged_binding o (top_binding h k x)) ↔
            is_Some o ∨ is_Some (top_binding h k x)) as ->.
    { destruct (top_binding h k x) as [v|]; simpl.
      - split; [auto|]. intros _.
        destruct o as [[| | | | |t]|], v; done.
      - split; [auto|]. intros [?|[? [=]]]. done. }
    split.
    + intros [[?|?]|(src & Hin & Hs)]; [by left| |].
      * right. exists x. split; [left|done].
      * right. exists src. split; [by right|done].
    + intros [?|(src & [->|Hin]%elem_of_cons & Hs)]; [by left; left| |].
      * left. by right.
      * right. by exists src.
Qed.

(** X1.  In every well-formed store, the merged view has a key at its top
    exactly when some fragment has that key at the top of its content:
    [merge_contexts] invents no key and drops none. *)
Theorem merge_contexts_keys lvl D fuel (h : heap) self :
  store_ok lvl D h self → D < fuel →
  ∃ h' self' m d,
    merge_contexts fuel h self = Some (h', self', Ok m) ∧ h' !! m = Some d ∧
    ∀ k, is_Some (dict_get k d) ↔
         ∃ src, src ∈ sources self ∧ is_Some (top_binding h k src).
Proof.
  intros Hok Hfuel.
  destruct (merge_contexts_top lvl D fuel h self Hok Hfuel)
    as (h' & d' & Hrun & Hd' & Htop).
  eexists _, _, _, _. split; [exact Hrun|]. split; [done|].
  intros k. rewrite Htop, merged_top_is_Some. split.
  - intros [[? [=]]|(src & Hin & Hs)]. exists src. split; [|done].
    by apply sorted_sources_elem.
  - intros (src & Hin & Hs). right. exists src. split; [|done].
    by rewrite sorted_sources_perm.
Qed.

Lemma merge_contexts_keys_witness :
  ∃ h' self' m d,
    merge_contexts 1 (fst prio_A_then_B) (snd prio_A_then_B)
      = Some (h', self', Ok m) ∧ h' !! m = Some d ∧
    ∀ k, is_Some (dict_get k d) ↔
         ∃ src, src ∈ sources (snd prio_A_then_B) ∧
                is_Some (top_binding (fst prio_A_then_B) k src).
Proof.
  apply (merge_contexts_keys (λ _, 0) 0 1).
  - apply store_okb_sound. reflexivity.
  - lia.
Defined.

(** X2.  The rule by which [merge_contexts] settles a key bound to a value
    that is not a mapping: fragment B gives the value when every other
    fragment that has the key either has a strictly higher priority than B,
    or has the priority of B and was added before B.  So the lowest
    priority wins, and among the lowest the most recently added. *)
Theorem merge_lowest_priority_wins lvl D fuel (h : heap) self l1 B l3 k v :
  store_ok lvl D h self → D < fuel →
  sources self = l1 ++ B :: l3 →
  top_binding h k B = Some v → isinstance_dict v = false →
  (∀ src, src ∈ l1 → (priority src < priority B)%Z →
          top_binding h k src = None) →
  (∀ src, src ∈ l3 → (priority src ≤ priority B)%Z →
          top_binding h k src = None) →
  ∃ h' self' m d,
    merge_contexts fuel h self = Some (h', self', Ok m) ∧ h' !! m = Some d ∧
    dict_get k d = Some v.
Proof.
  intros Hok Hfuel Hsrcs HB Hv Hbefore Hafter.
  destruct (merge_contexts_top lvl D fuel h self Hok Hfuel)
    as (h' & d' & Hrun & Hd' & Htop).
  eexists _, _, _, _. split; [exact Hrun|]. split; [done|].
  rewrite Htop, Hsrcs.
  destruct (sorted_sources_order l1 l3 B) as (pre & post & -> & _ & Hpost).
  rewrite merged_top_app, merged_top_cons, merged_top_lacks.
  - rewrite HB. simpl. destruct (merged_top h k None pre) as [[| | | | |t]|];
      destruct v; done.
  - intros src [[Hin Hlt]|[Hin Hle]]%Hpost; auto.
Qed.

Lemma merge_lowest_priority_wins_witness :
  ∃ h' self' m d,
    merge_contexts 1 (fst prio_B_then_A) (snd prio_B_then_A)
      = Some (h', self', Ok m) ∧ h' !! m = Some d ∧
    dict_get "k" d = Some (VStr "B").
Proof.
  apply (merge_lowest_priority_wins (λ _, 0) 0 1
           (fst prio_B_then_A) (snd prio_B_then_A)
           [] (mkContextSource "B" 1 1 "unknown" 2)
           [mkContextSource "A" 3 10 "unknown" 4]).
  - apply store_okb_sound. reflexivity.
  - lia.
  - reflexivity.
  - reflexivity.
  - reflexivity.
  - intros src Hin. exfalso. eapply elem_of_nil. exact Hin.
  - intros src Hin Hle. apply list_elem_of_singleton in Hin. subst src.
    simpl in Hle. lia.
Defined.

(** X3.  The merged view shares nested dictionaries with the fragments: when
    every fragment that has key [k] binds it to a mapping, the view binds
    [k] to the very dictionary object of the fragment that is merged first
    (the highest priority, and among equals the first added), not to a
    copy. *)
Theorem merge_shares_nested_dictionary lvl D fuel (h : heap) self
    l1 A l3 k a :
  store_ok lvl D h self → D < fuel →
  sources self = l1 ++ A :: l3 →
  top_binding h k A = Some (VDict a) →
  (∀ src, src ∈ sources self →
          binds_dict h k src = true ∨ top_binding h k src = None) →
  (∀ src, src ∈ l1 → (priority A ≤ priority src)%Z →
          top_binding h k src = None) →
  (∀ src, src ∈ l3 → (priority A < priority src)%Z →
          top_binding h k src = None) →
  ∃ h' self' m d,
    merge_contexts fuel h self = Some (h', self', Ok m) ∧ h' !! m = Some d ∧
    dict_get k d = Some (VDict a).
Proof.
  intros Hok Hfuel Hsrcs HA Hdicts Hbefore Hafter.
  destruct (merge_contexts_top lvl D fuel h self Hok Hfuel)
    as (h' & d' & Hrun & Hd' & Htop).
  eexists _, _, _, _. split; [exact Hrun|]. split; [done|].
  rewrite Htop.
  destruct (sorted_sources_order l1 l3 A) as (pre & post & Hsorted & Hpre & _).
  assert (∀ src, src ∈ post → src ∈ sources self) as Hpost_in.
  { intros src Hin. apply sorted_sources_elem. rewrite Hsrcs, Hsorted.
    apply elem_of_app. right. by right. }
  rewrite Hsrcs, Hsorted, merged_top_app.
  rewrite (merged_top_lacks h k None pre).
  - rewrite merged_top_cons, HA. simpl. apply merged_top_dicts. auto.
  - intros src [[Hin Hle]|[Hin Hlt]]%Hpre; auto.
Qed.

Lemma merge_shares_nested_dictionary_witness :
  ∃ h' self' m d,
    merge_contexts 2 (fst nested_hi_then_lo) (snd nested_hi_then_lo)
      = Some (h', self', Ok m) ∧ h' !! m = Some d ∧
    dict_get "app" d = Some (VDict 1).
Proof.
  apply (merge_shares_nested_dictionary
           (λ l, if (l =? 1) || (l =? 4) then 1 else 0) 1 2
           (fst nested_hi_then_lo) (snd nested_hi_then_lo)
           [] (mkContextSource "hi" 2 10 "unknown" 3)
           [mkContextSource "lo" 5 0 "unknown" 6]).
  - apply store_okb_sound. reflexivity.
  - lia.
  - reflexivity.
  - reflexivity.
  - intros src Hin. left.
    apply elem_of_cons in Hin as [->|Hin]; [reflexivity|].
    apply list_elem_of_singleton in Hin. subst src. reflexivity.
  - intros src Hin. exfalso. eapply elem_of_nil. exact Hin.
  - intros src Hin Hlt. apply list_elem_of_singleton in Hin. subst src.
    simpl in Hlt. lia.
Defined.

(** X4.  [merge_contexts] keeps the fragment list as it is, leaves the top
    of every fragment's content as it was (only dictionaries nested inside
    can change), returns a dictionary object that did not exist before, and
    leaves the store well formed. *)
Theorem merge_contexts_keeps_fragment_tops lvl D fuel (h : heap) self :
  store_ok lvl D h self → D < fuel →
  ∃ h' self' m,
    merge_contexts fuel h self = Some (h', self', Ok m) ∧
    sources self' = sources self ∧ context self' = m ∧
    h !! m = None ∧ is_Some (h' !! m) ∧
    (∀ src, src ∈ sources self → h' !! content src = h !! content src) ∧
    ∃ lvl', store_ok lvl' D h' self'.
Proof.
  intros Hok Hfuel.
  destruct (merge_contexts_spec lvl D fuel h self Hok Hfuel)
    as (h' & d' & Hrun & Hd' & Hok' & Hkeep & _).
  eexists _, _, _. split; [exact Hrun|]. simpl.
  split; [done|]. split; [done|]. split; [by apply lookup_ge_None|].
  split; [by eexists|]. split; [done|]. by eexists.
Qed.

Lemma merge_contexts_keeps_fragment_tops_witness :
  ∃ h' self' m,
    merge_contexts 2 (fst nested_hi_then_lo) (snd nested_hi_then_lo)
      = Some (h', self', Ok m) ∧
    sources self' = sources (snd nested_hi_then_lo) ∧ context self' = m ∧
    fst nested_hi_then_lo !! m = None ∧ is_Some (h' !! m) ∧
    (∀ src, src ∈ sources (snd nested_hi_then_lo) →
            h' !! content src = fst nested_hi_then_lo !! content src) ∧
    ∃ lvl', store_ok lvl' 1 h' self'.
Proof.
  apply (merge_contexts_keeps_fragment_tops
           (λ l, if (l =? 1) || (l =? 4) then 1 else 0) 1 2).
  - apply store_okb_sound. reflexivity.
  - lia.
Defined.

(** ** Merging without a conflict of mappings *)

(** When no key of [items] meets a dictionary in [target] with a dictionary
    of its own, the loop of [_deep_merge] never recurses: it rewrites
    [target] and nothing else. *)
Lemma merge_items_flat rec t (items : dict) :
  NoDup items.*1 →
  ∀ (h : heap) d,
    h !! t = Some d →
    (∀ k v, (k, v) ∈ items →
            is_dict (dict_get k d) && isinstance_dict v = false) →
    ∃ d', for_in (merge_item rec t) items h = Some (<[t := d']> h, Ok tt) ∧
          ∀ k, dict_get k d' = merged_binding (dict_get k d) (dict_get k items).
Proof.
  induction items as [|[key value] items IH]; intros Hnd h d Ht Hflat.
  - exists d. simpl. split; [|done]. by rewrite list_insert_id.
  - simpl in Hnd. apply NoDup_cons in Hnd as [Hkey Hnd].
    assert (merge_item rec t h (key, value)
            = Some (<[t := dict_set key value d]> h, Ok tt)) as Hstep.
    { unfold merge_item. rewrite Ht.
      specialize (Hflat key value (list_elem_of_here _ _)).
      destruct (dict_get key d) as [[| | | | |t']|]; try done.
      destruct value; done. }
    destruct (IH Hnd (<[t := dict_set key value d]> h) (dict_set key value d))
      as (d' & Hrun & Htop).
    { apply list_lookup_insert_eq. by eapply lookup_lt_Some. }
    { intros k v Hin.
      assert (k ≠ key) as Hne.
      { intros ->. apply Hkey. by apply (list_elem_of_fmap_2 fst) in Hin. }
      rewrite dict_get_set_ne by congruence. apply Hflat. by right. }
    exists d'. cbn [for_in]. rewrite Hstep, Hrun.
    split; [by rewrite list_insert_insert_eq|].
    intros k. rewrite Htop. simpl.
    destruct (String.eqb_spec k key) as [->|Hne].
    + apply dict_get_None in Hkey. rewrite Hkey, dict_get_set_eq. simpl.
      specialize (Hflat key value (list_elem_of_here _ _)).
      destruct (dict_get key d) as [[| | | | |t']|]; try done.
      destruct value; done.
    + by rewrite dict_get_set_ne by congruence.
Qed.

(** Then the view of [source] is not disturbed either. *)
Lemma deep_merge_flat_for_in fuel t s (h : heap) d (items : dict) :
  s ≠ t → h !! t = Some d → h !! s = Some items → NoDup items.*1 →
  (∀ k v, (k, v) ∈ items →
          is_dict (dict_get k d) && isinstance_dict v = false) →
  _deep_merge (S fuel) t s h
  = for_in (merge_item (_deep_merge fuel) t) items h.
Proof.
  intros Hne Ht Hs Hnd Hflat. cbn [_deep_merge]. rewrite Hs.
  assert (Hlt : t < length h) by (by eapply lookup_lt_Some).
  apply (for_items_for_in
           (λ rest h1, ∃ d1, h1 = <[t := d1]> h ∧ NoDup rest.*1 ∧
                             ∀ k v, (k, v) ∈ rest →
                                    is_dict (dict_get k d1)
                                    && isinstance_dict v = false)).
  - intros rest h1 (d1 & -> & _). by rewrite list_lookup_insert_ne.
  - intros [key value] rest h1 h2 (d1 & -> & Hnd1 & Hflat1) Hrun.
    simpl in Hnd1. apply NoDup_cons in Hnd1 as [Hkey Hnd1].
    unfold merge_item in Hrun. rewrite list_lookup_insert_eq in Hrun by done.
    exists (dict_set key value d1).
    split; [|split; [done|]].
    + specialize (Hflat1 key value (list_elem_of_here _ _)).
      rewrite list_insert_insert_eq in Hrun.
      destruct (dict_get key d1) as [[| | | | |t']|];
        try (by injection Hrun as <-).
      destruct value; try (by injection Hrun as <-). done.
    + intros k v Hin.
      assert (k ≠ key) as Hk.
      { intros ->. apply Hkey. by apply (list_elem_of_fmap_2 fst) in Hin. }
      rewrite dict_get_set_ne by congruence. apply Hflat1. by right.
  - exists d. split; [by rewrite list_insert_id|done].
Qed.

Lemma is_dict_merged_binding o n :
  is_dict (merged_binding o n) = true → is_dict o = true ∨ is_dict n = true.
Proof. destruct o as [[]|], n as [[]|]; auto. Qed.

Lemma count_dicts_cons (h : heap) k x (srcs : list ContextSource) :
  count_dicts h k (x :: srcs)
  = (if binds_dict h k x then 1 else 0) + count_dicts h k srcs.
Proof.
  unfold count_dicts. rewrite filter_cons.
  destruct (decide (binds_dict h k x = true)) as [Hb|Hb].
  - by rewrite Hb.
  - apply not_true_is_false in Hb. by rewrite Hb.
Qed.

Lemma count_dicts_ext (h1 h2 : heap) k (srcs : list ContextSource) :
  (∀ src, src ∈ srcs → h1 !! content src = h2 !! content src) →
  count_dicts h1 k srcs = count_dicts h2 k srcs.
Proof.
  induction srcs as [|x srcs IH]; intros Hsame; [done|].
  rewrite !count_dicts_cons, IH by (intros src Hin; apply Hsame; by right).
  unfold binds_dict, top_binding. rewrite (Hsame x); [done|left].
Qed.

Lemma count_dicts_perm (h : heap) k (l1 l2 : list ContextSource) :
  l1 ≡ₚ l2 → count_dicts h k l1 = count_dicts h k l2.
Proof. intros Hp. unfold count_dicts. by rewrite Hp. Qed.

(** The loop of [merge_contexts] when no key is bound to a dictionary twice
    (by the accumulator and a fragment, or by two fragments): only the
    accumulator is rewritten. *)
Lemma merge_sources_flat fuel r (h0 : heap) (srcs : list ContextSource) :
  0 < fuel → r < length h0 →
  (∀ src, src ∈ srcs →
          content src ≠ r ∧
          ∃ items, h0 !! content src = Some items ∧ NoDup items.*1) →
  ∀ d,
    (∀ k, (if is_dict (dict_get k d) then 1 else 0) + count_dicts h0 k srcs
          ≤ 1) →
    ∃ d', for_in (λ h src, _deep_merge fuel r (content src) h) srcs
                 (<[r := d]> h0) = Some (<[r := d']> h0, Ok tt) ∧
          ∀ k, dict_get k d' = merged_top h0 k (dict_get k d) srcs.
Proof.
  intros Hfuel Hr. induction srcs as [|x srcs IH]; intros Hsrcs d Hcount.
  - by exists d.
  - destruct (Hsrcs x) as (Hxr & items & Hitems & Hnd); [left|].
    assert (Htx : ∀ k', top_binding h0 k' x = dict_get k' items).
    { intros k'. unfold top_binding. by rewrite Hitems. }
    assert (Hflat : ∀ k v, (k, v) ∈ items →
                           is_dict (dict_get k d) && isinstance_dict v = false).
    { intros k v Hin. specialize (Hcount k). rewrite count_dicts_cons in Hcount.
      unfold binds_dict in Hcount. rewrite Htx in Hcount.
      rewrite (dict_get_elem k v items Hnd Hin) in Hcount.
      destruct (is_dict (dict_get k d)); [|done].
      destruct v; simpl in *; try done. lia. }
    destruct (merge_items_flat (_deep_merge (pred fuel)) r items Hnd
                (<[r := d]> h0) d) as (d1 & Hrun1 & Htop1).
    { by apply list_lookup_insert_eq. }
    { done. }
    destruct (IH) with (d := d1) as (d' & Hrun & Htop).
    { intros src Hin. apply Hsrcs. by right. }
    { intros k. specialize (Hcount k). rewrite count_dicts_cons in Hcount.
      destruct (is_dict (dict_get k d1)) eqn:Hd1; [|lia].
      rewrite Htop1 in Hd1. apply is_dict_merged_binding in Hd1.
      unfold binds_dict in Hcount. rewrite Htx in Hcount.
      destruct Hd1 as [Hd|Hd].
      - rewrite Hd in Hcount. lia.
      - unfold is_dict in Hd.
        destruct (dict_get k items) as [[| | | | |s]|]; try done. lia. }
    exists d'. cbn [for_in].
    assert (_deep_merge fuel r (content x) (<[r := d]> h0)
            = Some (<[r := d1]> h0, Ok tt)) as ->.
    { destruct fuel as [|fuel]; [lia|].
      rewrite (deep_merge_flat_for_in fuel r (content x) _ d items);
        [|done|by apply list_lookup_insert_eq
         |by rewrite list_lookup_insert_ne|done|done].
      simpl in Hrun1. rewrite Hrun1. by rewrite list_insert_insert_eq. }
    split; [done|].
    intros k. rewrite Htop, merged_top_cons, Htop1. by rewrite Htx.
Qed.

Lemma merge_contexts_disjoint_fragments lvl D fuel (h : heap) self :
  store_ok lvl D h self → 0 < fuel →
  (∀ k, count_dicts h k (sources self) ≤ 1) →
  ∃ d,
    merge_contexts fuel h self =
      Some (h ++ [d], {| sources := sources self; context := length h |},
            Ok (length h)) ∧
    ∀ k, dict_get k d = merged_top h k None (sorted_sources (sources self)).
Proof.
  intros [Hok Hsrcs] Hfuel Hcount.
  destruct (merge_sources_flat fuel (length h) (h ++ [[]])
              (sorted_sources (sources self))) with (d := @nil (string * value))
    as (d' & Hrun & Htop).
  - done.
  - rewrite length_app. simpl. lia.
  - intros src Hin%sorted_sources_elem. destruct (Hsrcs src Hin) as [Hlt _].
    split; [lia|].
    destruct (lookup_lt_is_Some_2 h (content src) Hlt) as [items Hitems].
    exists items. split; [by rewrite lookup_app_l|]. by apply (Hok _ _ Hitems).
  - intros k. simpl.
    rewrite (count_dicts_perm _ k _ _ (sorted_sources_perm (sources self))).
    rewrite (count_dicts_ext (h ++ [[]]) h); [apply Hcount|].
    intros src Hin. destruct (Hsrcs src Hin) as [Hlt _].
    by rewrite lookup_app_l.
  - assert (<[length h := []]> (h ++ [[]]) = h ++ [[]]) as Hid.
    { apply list_insert_id. rewrite lookup_app_r, Nat.sub_diag by lia. done. }
    rewrite Hid in Hrun.
    exists d'. unfold merge_contexts, alloc. rewrite Hrun.
    assert (<[length h := d']> (h ++ [[]]) = h ++ [d']) as ->.
    { rewrite insert_app_r_alt, Nat.sub_diag by lia. done. }
    split; [done|].
    intros k. rewrite Htop. simpl. apply merged_top_ext.
    intros src Hin%sorted_sources_elem. destruct (Hsrcs src Hin) as [Hlt _].
    by rewrite lookup_app_l.
Qed.

(** X5.  In a well-formed store in which no key is bound to a mapping by
    more than one fragment, [merge_contexts] changes no existing dictionary:
    the heap after the call is the heap before it plus the one new
    dictionary it returns, so no fragment is touched. *)
Theorem merge_contexts_without_conflict lvl D fuel (h : heap) self :
  store_ok lvl D h self → 0 < fuel →
  (∀ k, count_dicts h k (sources self) ≤ 1) →
  ∃ d,
    merge_contexts fuel h self =
      Some (h ++ [d], {| sources := sources self; context := length h |},
            Ok (length h)) ∧
    ∀ k, dict_get k d = merged_top h k None (sorted_sources (sources self)).
Proof. apply merge_contexts_disjoint_fragments. Qed.

Lemma merge_contexts_without_conflict_witness :
  ∃ d,
    merge_contexts 1 (fst user_store) (snd user_store) =
      Some (fst user_store ++ [d],
            {| sources := sources (snd user_store);
               context := length (fst user_store) |},
            Ok (length (fst user_store))) ∧
    ∀ k, dict_get k d
         = merged_top (fst user_store) k None
             (sorted_sources (sources (snd user_store))).
Proof.
  apply (merge_contexts_without_conflict (λ l, if l =? 1 then 1 else 0) 1 1).
  - apply store_okb_sound. reflexivity.
  - lia.
  - intros k. simpl. rewrite count_dicts_cons. unfold count_dicts. simpl.
    destruct (binds_dict _ k _); simpl; lia.
Defined.

(** ** Reading back what was put *)

Lemma split_dot_nonempty s : split_dot s ≠ [].
Proof.
  destruct s as [|c s]; simpl; [done|].
  destruct (split_dot s); [done|]. by destruct (Ascii.eqb c dot).
Qed.

(** Objects made later do not change what a path denotes from an object
    that exists. *)
Lemma resolve_app lvl D (h h2 : heap) segs v :
  heap_ok lvl D h → (∀ l, v = VDict l → l < length h) →
  resolve (h ++ h2) segs v = resolve h segs v.
Proof.
  intros Hok. revert v. induction segs as [|k segs IH]; intros v Hv; [done|].
  simpl. destruct v as [| | | | |l]; try done.
  specialize (Hv l eq_refl). rewrite lookup_app_l by done.
  destruct (h !! l) as [d|] eqn:Hl; [|done].
  destruct (dict_get k d) as [v'|] eqn:Hget; [|done].
  apply IH. intros l' ->. destruct (Hok l d Hl) as [_ [_ Hrefs]].
  apply (Hrefs k l'). by apply dict_get_Some_elem.
Qed.

Lemma walk_app lvl D (h h2 : heap) segs v :
  heap_ok lvl D h → (∀ l, v = VDict l → l < length h) →
  walk (h ++ h2) segs v = walk h segs v.
Proof.
  intros Hok. revert v. induction segs as [|k segs IH]; intros v Hv; [done|].
  simpl. destruct v as [| | | | |l]; try done. simpl.
  specialize (Hv l eq_refl). rewrite lookup_app_l by done.
  destruct (h !! l) as [d|] eqn:Hl; [|done].
  destruct (dict_get k d) as [v'|] eqn:Hget; [|done].
  apply IH. intros l' ->. destruct (Hok l d Hl) as [_ [_ Hrefs]].
  apply (Hrefs k l'). by apply dict_get_Some_elem.
Qed.

(** [get_context] on a store with one fragment and no cached view. *)
Lemma get_context_single_fragment lvl D fuel (h : heap) self src key default :
  store_ok lvl D h self → 0 < fuel →
  sources self = [src] → context_is_empty h self = true →
  ∃ d,
    get_context fuel (Some key) default h self
    = Some (h ++ [d], {| sources := [src]; context := length h |},
            Ok (match resolve h (split_dot key) (VDict (content src)) with
                | Some w => w
                | None => default
                end)).
Proof.
  intros Hok Hfuel Hsrc Hempty.
  destruct (merge_contexts_disjoint_fragments lvl D fuel h self Hok Hfuel)
    as (d & Hrun & Htop).
  { intros k. rewrite Hsrc, count_dicts_cons. unfold count_dicts. simpl.
    destruct (binds_dict h k src); simpl; lia. }
  exists d. unfold get_context. rewrite Hempty, Hrun, Hsrc. simpl.
  do 2 f_equal.
  destruct Hok as [Hok Hsrcs].
  destruct (Hsrcs src) as [Hc _]; [rewrite Hsrc; left|].
  assert (resolve (h ++ [d]) (split_dot key) (VDict (length h))
          = resolve h (split_dot key) (VDict (content src))) as Hres.
  { pose proof (split_dot_nonempty key) as Hne.
    destruct (split_dot key) as [|k segs]; [done|]. simpl.
    rewrite lookup_app_r, Nat.sub_diag by lia. simpl.
    rewrite Htop, Hsrc. simpl. unfold merged_top. simpl.
    unfold top_binding.
    destruct (h !! content src) as [items|] eqn:Hitems; [|done].
    destruct (dict_get k items) as [v|] eqn:Hget; [|done].
    replace (merged_binding None (Some v)) with (Some v) by (by destruct v).
    apply (resolve_app lvl D); [done|].
    intros l ->. destruct (Hok _ _ Hitems) as [_ [_ Hrefs]].
    apply (Hrefs k l). by apply dict_get_Some_elem. }
  pose proof (walk_resolve (h ++ [d]) (split_dot key) (VDict (length h)))
    as Hw.
  rewrite Hres in Hw.
  destruct (resolve h (split_dot key) (VDict (content src))) as [w|].
  - by rewrite Hw.
  - destruct Hw as (e & -> & He). destruct e; simpl in He; destruct He; done.
Qed.

Lemma get_context_after_first_add_source lvl D fuel (h : heap) self
    n c p st md key default h1 self1 :
  store_ok lvl D h self → 0 < fuel →
  sources self = [] → context_is_empty h self = true →
  c < length h → lvl c = 0 →
  add_source n (VDict c) p st md h self = Ok (h1, self1) →
  ∃ h2 self2,
    get_context fuel (Some key) default h1 self1
    = Some (h2, self2,
            Ok (match resolve h (split_dot key) (VDict c) with
                | Some w => w
                | None => default
                end)).
Proof.
  intros [Hok Hsrcs] Hfuel Hnone Hempty Hc Hlc Hadd.
  unfold add_source in Hadd. rewrite Hnone in Hadd. simpl in Hadd.
  assert (∃ h2, h1 = h ++ h2 ∧ ∃ lvl', store_ok lvl' D h1 self1)
    as (h2 & Hh1 & lvl' & Hok1).
  { destruct md as [m|]; simpl in Hadd; injection Hadd as <- <-.
    - exists []. split; [by rewrite app_nil_r|]. exists lvl.
      split; [done|]. simpl. intros src ->%list_elem_of_singleton. done.
    - exists [[]]. split; [done|]. exists (lvl_fresh lvl (length h)).
      split; [by apply heap_ok_alloc|]. simpl.
      intros src ->%list_elem_of_singleton. simpl. rewrite length_app.
      unfold lvl_fresh, lvl_at. destruct (Nat.eqb_spec c (length h)); [lia|].
      split; [lia|done]. }
  assert (sources self1 = [{| name := n; content := c; priority := p;
                              source_type := st;
                              metadata := match md with
                                          | Some m => m
                                          | None => length h
                                          end |}]
          ∧ context self1 = context self) as [Hs1 Hc1].
  { destruct md; simpl in Hadd; by injection Hadd as <- <-. }
  assert (context_is_empty h1 self1 = true) as Hempty1.
  { unfold context_is_empty in *. rewrite Hc1, Hh1.
    destruct (h !! context self) as [d|] eqn:Hd; [|done].
    by rewrite (lookup_app_l_Some _ _ _ _ Hd). }
  destruct (get_context_single_fragment lvl' D fuel h1 self1 _ key default
              Hok1 Hfuel Hs1 Hempty1) as (d & ->).
  eexists _, _. do 3 f_equal. simpl. rewrite Hh1.
  by rewrite (resolve_app lvl D) by (done || intros l [= <-]; done).
Qed.

(** X6.  What is put is read back: on a manager with no fragment and no
    cached view, after [add_source] of a dictionary, [get_context] with a
    dotted path returns the value that path denotes in that dictionary, or
    the default when it denotes nothing. *)
Theorem add_source_then_get_context lvl D fuel (h : heap) self
    n c p st md key default h1 self1 :
  store_ok lvl D h self → 0 < fuel →
  sources self = [] → context_is_empty h self = true →
  c < length h → lvl c = 0 →
  add_source n (VDict c) p st md h self = Ok (h1, self1) →
  ∃ h2 self2,
    get_context fuel (Some key) default h1 self1
    = Some (h2, self2,
            Ok (match resolve h (split_dot key) (VDict c) with
                | Some w => w
                | None => default
                end)).
Proof. apply get_context_after_first_add_source. Qed.

Lemma add_source_then_get_context_witness :
  ∃ h2 self2,
    get_context 1 (Some "user.name") VNone
      (heap_with_literal ++ [[]])
      {| sources := [mkContextSource "test" 2 1 "unknown" 3]; context := 0 |}
    = Some (h2, self2, Ok (VStr "Test")).
Proof.
  apply (add_source_then_get_context
           (λ l, if l =? 1 then 1 else 0) 1 1
           heap_with_literal (snd new_manager)
           "test" 2 1 "unknown" None "user.name" VNone).
  - apply store_okb_sound. reflexivity.
  - lia.
  - reflexivity.
  - reflexivity.
  - simpl. lia.
  - reflexivity.
  - reflexivity.
Defined.

(** X7.  [add_source] does not refresh a cached view: when [self.context]
    holds a non-empty mapping, [get_context] returns after [add_source]
    exactly what it returned before, for every key, and merges nothing. *)
Theorem add_source_keeps_cached_view lvl D fuel (h : heap) self
    n cv p st md key default h1 self1 :
  store_ok lvl D h self →
  context_is_empty h self = false → context self < length h →
  add_source n cv p st md h self = Ok (h1, self1) →
  ∃ r,
    get_context fuel key default h self = Some (h, self, r) ∧
    get_context fuel key default h1 self1 = Some (h1, self1, r).
Proof.
  intros [Hok _] Hfull Hctx Hadd.
  assert (∃ h2, h1 = h ++ h2 ∧ context self1 = context self)
    as (h2 & -> & Hc1).
  { unfold add_source in Hadd.
    destruct md as [m|], cv; simpl in Hadd; try done;
      injection Hadd as <- <-.
    - exists []. by rewrite app_nil_r.
    - by exists [[]]. }
  assert (context_is_empty (h ++ h2) self1 = false) as Hfull1.
  { unfold context_is_empty in *. rewrite Hc1, lookup_app_l by done. done. }
  unfold get_context. rewrite Hfull, Hfull1.
  destruct key as [key|]; [|exists (Ok (VDict (context self)));
                            by rewrite Hc1].
  eexists. split; [reflexivity|]. do 2 f_equal. rewrite Hc1.
  by rewrite (walk_app lvl D) by (done || intros l [= <-]; done).
Qed.

Lemma add_source_keeps_cached_view_witness :
  ∃ r,
    get_context 1 (Some "c") VNone
      (fst dotted_key_cached) (snd dotted_key_cached)
    = Some (fst dotted_key_cached, snd dotted_key_cached, r) ∧
    get_context 1 (Some "c") VNone
      (fst dotted_key_cached ++ [[]])
      {| sources := sources (snd dotted_key_cached) ++
                    [mkContextSource "later" 1 5 "unknown" 4];
         context := 3 |}
    = Some (fst dotted_key_cached ++ [[]],
            {| sources := sources (snd dotted_key_cached) ++
                          [mkContextSource "later" 1 5 "unknown" 4];
               context := 3 |}, r).
Proof.
  apply (add_source_keeps_cached_view (λ _, 0) 0 1
           (fst dotted_key_cached) (snd dotted_key_cached)
           "later" (VDict 1) 5 "unknown" None (Some "c") VNone).
  - apply store_okb_sound. reflexivity.
  - reflexivity.
  - simpl. lia.
  - reflexivity.
Defined.

(** X8.  Asking twice gives the same answer: in a well-formed store, two
    calls of [get_context] in a row with the same key and default return the
    same value (the second one reads the view the first one cached, or, when
    that view is empty, merges again into an empty view). *)
Theorem get_context_twice lvl D fuel (h : heap) self key default :
  store_ok lvl D h self → D < fuel →
  ∃ h1 self1 h2 self2 r,
    get_context fuel (Some key) default h self = Some (h1, self1, r) ∧
    get_context fuel (Some key) default h1 self1 = Some (h2, self2, r).
Proof.
  intros Hok Hfuel.
  destruct (context_is_empty h self) eqn:Hempty.
  - destruct (merge_contexts_spec lvl D fuel h self Hok Hfuel)
      as (h' & d' & Hrun & Hd' & Hok' & Hkeep & _).
    destruct (merge_contexts_top lvl D fuel h self Hok Hfuel)
      as (h'' & d'' & Hrun' & Hd'' & Htop).
    assert (h'' = h') as -> by congruence.
    assert (d'' = d') as -> by congruence.
    set (self' := {| sources := sources self; context := length h |}) in *.
    destruct (context_is_empty h' self') eqn:Hempty'.
    + (* the merged view is empty: the second call merges again *)
      assert (d' = []) as ->.
      { unfold context_is_empty in Hempty'. simpl in Hempty'.
        rewrite Hd' in Hempty'. by destruct d'. }
      destruct (merge_contexts_top _ D fuel h' self' Hok' Hfuel)
        as (h2 & d2 & Hrun2 & Hd2 & Htop2).
      assert (∀ k, dict_get k d2 = None) as Hnone.
      { intros k. rewrite Htop2. simpl.
        rewrite (merged_top_ext h' h).
        - rewrite <- Htop. done.
        - intros src Hin%sorted_sources_elem. by apply Hkeep. }
      pose proof (split_dot_nonempty key) as Hne.
      exists h', self', h2,
        {| sources := sources self'; context := length h' |}, (Ok default).
      unfold get_context. rewrite Hempty, Hrun, Hempty', Hrun2. simpl.
      destruct (split_dot key) as [|k segs]; [done|]. simpl.
      rewrite Hd', Hd2, Hnone. done.
    + destruct (get_context_key_spec lvl D fuel h self key default Hok Hfuel)
        as (h1 & self1 & v & Hget & _).
      assert (h1 = h' ∧ self1 = self') as [-> ->].
      { unfold get_context in Hget. rewrite Hempty, Hrun in Hget.
        by injection Hget as <- <- _. }
      exists h', self', h', self', (Ok v). split; [done|].
      unfold get_context in *. rewrite Hempty' .
      rewrite Hempty, Hrun in Hget. done.
  - destruct (get_context_key_spec lvl D fuel h self key default Hok Hfuel)
      as (h1 & self1 & v & Hget & _).
    assert (h1 = h ∧ self1 = self) as [-> ->].
    { unfold get_context in Hget. rewrite Hempty in Hget.
      by injection Hget as <- <- _. }
    by exists h, self, h, self, (Ok v).
Qed.

Lemma get_context_twice_witness :
  ∃ h1 self1 h2 self2 r,
    get_context 3 (Some "a.k.y") VNone
                (fst four_fragments) (snd four_fragments)
      = Some (h1, self1, r) ∧
    get_context 3 (Some "a.k.y") VNone h1 self1 = Some (h2, self2, r).
Proof.
  apply (get_context_twice
           (λ l, if (l =? 1) || (l =? 5) || (l =? 8) || (l =? 12) then 1
                 else if (l =? 4) || (l =? 11) then 2 else 0) 2 3).
  - apply store_okb_sound. reflexivity.
  - lia.
Defined.

(** ** Keys with a dot *)

Lemma split_dot_has_dot s :
  has_dot s = true → ∃ a b rest, split_dot s = a :: b :: rest.
Proof.
  induction s as [|c s IH]; simpl; [done|].
  pose proof (split_dot_nonempty s) as Hne.
  destruct (split_dot s) as [|seg segs] eqn:Hs; [done|].
  destruct (Ascii.eqb c dot); simpl; [by eauto|].
  intros (a & b & rest & [= -> ->])%IH. by eauto.
Qed.

Lemma get_context_flat_view_dotted_key fuel (h : heap) self d key default :
  h !! context self = Some d → d ≠ [] →
  (∀ k v, dict_get k d = Some v → isinstance_dict v = false) →
  has_dot key = true →
  get_context fuel (Some key) default h self = Some (h, self, Ok default).
Proof.
  intros Hd Hne Hflat Hdot. unfold get_context, context_is_empty.
  rewrite Hd. destruct d as [|item d]; [done|].
  destruct (split_dot_has_dot key Hdot) as (a & b & rest & ->).
  simpl. rewrite Hd.
  destruct (dict_get a (item :: d)) as [v|] eqn:Hget; [|done].
  specialize (Hflat a v Hget). by destruct v.
Qed.

(** X9.  A key that contains a dot cannot be read as such: [get_context]
    always splits it.  When the cached view is a flat mapping (no value is a
    mapping), [get_context] with a key that contains a dot returns the
    default, even when the view has that very key. *)
Theorem get_context_dotted_key_unreachable fuel (h : heap) self d key default :
  h !! context self = Some d → d ≠ [] →
  (∀ k v, dict_get k d = Some v → isinstance_dict v = false) →
  has_dot key = true →
  get_context fuel (Some key) default h self = Some (h, self, Ok default).
Proof. apply get_context_flat_view_dotted_key. Qed.

Lemma get_context_dotted_key_unreachable_witness :
  dict_get "a.b" [("a.b", VInt 1); ("c", VInt 2)] = Some (VInt 1) ∧
  get_context 1 (Some "a.b") (VStr "fallback")
              (fst dotted_key_cached) (snd dotted_key_cached)
  = Some (fst dotted_key_cached, snd dotted_key_cached, Ok (VStr "fallback")).
Proof.
  split; [reflexivity|].
  apply (get_context_dotted_key_unreachable 1
           (fst dotted_key_cached) (snd dotted_key_cached)
           [("a.b", VInt 1); ("c", VInt 2)]).
  - reflexivity.
  - discriminate.
  - intros k v. simpl.
    destruct (String.eqb k "a.b"); [by intros [= <-]|].
    destruct (String.eqb k "c"); [by intros [= <-]|done].
  - reflexivity.
Defined.

(** ** Loading a file *)



(** X11.  A file read back: when the path exists, its suffix is, in any
    letter case, one of .json, .yaml and .yml, and the parser gives a
    dictionary, [load_from_file] on a manager with no fragment and no cached
    view adds one fragment named after the file, of source type "file",
    whose metadata holds the absolute path; [get_context] then returns the
    value a dotted path denotes in the parsed dictionary, or the default. *)
Theorem load_from_file_then_get_context lvl D fuel fs p prio (h : heap) self
    loader h1 c key default :
  path_exists fs p = true → selected_loader fs p = Some loader →
  loader h = Ok (h1, VDict c) →
  store_ok lvl D h1 self → c < length h1 → lvl c = 0 →
  sources self = [] → context_is_empty h1 self = true → 0 < fuel →
  ∃ h2 self2 h3 self3,
    load_from_file fs p prio h self = Ok (h2, self2) ∧
    sources self2 = [{| name := path_name fs p; content := c;
                        priority := prio; source_type := "file";
                        metadata := length h1 |}] ∧
    h2 !! length h1 = Some [("path", VStr (path_absolute fs p))] ∧
    get_context fuel (Some key) default h2 self2
    = Some (h3, self3,
            Ok (match resolve h1 (split_dot key) (VDict c) with
                | Some w => w
                | None => default
                end)).
Proof.
  intros Hex Hsel Hload Hok Hc Hlc Hnone Hempty Hfuel.
  set (md := [("path", VStr (path_absolute fs p))]).
  assert (load_from_file fs p prio h self
          = add_source (path_name fs p) (VDict c) prio "file"
                       (Some (length h1)) (h1 ++ [md]) self) as Hrun.
  { unfold load_from_file, selected_loader in *. rewrite Hex. cbn [negb].
    destruct (str_in (str_lower (path_suffix fs p)) [".json"]).
    - injection Hsel as <-. by rewrite Hload.
    - destruct (str_in (str_lower (path_suffix fs p)) [".yaml"; ".yml"]);
        [|done].
      injection Hsel as <-. by rewrite Hload. }
  destruct Hok as [Hok Hsrcs].
  destruct (heap_ok_alloc_dict lvl D h1 md 0) as [Hok2 Hext2];
    [done|lia|apply NoDup_singleton| |].
  { intros k l Hin. apply list_elem_of_singleton in Hin. done. }
  destruct (get_context_after_first_add_source (lvl_at lvl (length h1) 0) D fuel
              (h1 ++ [md]) self (path_name fs p) c prio "file"
              (Some (length h1)) key default (h1 ++ [md])
              {| sources := sources self ++
                   [{| name := path_name fs p; content := c;
                       priority := prio; source_type := "file";
                       metadata := length h1 |}];
                 context := context self |})
    as (h3 & self3 & Hget).
  - split; [done|]. rewrite Hnone. intros src Hin. by apply elem_of_nil in Hin.
  - done.
  - done.
  - unfold context_is_empty in *.
    destruct (h1 !! context self) as [d0|] eqn:Hd0; [|done].
    by rewrite (lookup_app_l_Some _ _ _ _ Hd0).
  - rewrite length_app. simpl. lia.
  - unfold lvl_at. destruct (Nat.eqb_spec c (length h1)); [lia|done].
  - done.
  - eexists _, _, h3, self3. rewrite Hrun. simpl.
    split; [done|]. split; [by rewrite Hnone|].
    split; [by rewrite lookup_app_r, Nat.sub_diag by lia|].
    rewrite Hget. do 3 f_equal.
    by rewrite (resolve_app lvl D) by (done || intros l [= <-]; done).
Qed.

Lemma load_from_file_then_get_context_witness :
  ∃ h2 self2 h3 self3,
    load_from_file fs_user "user.JSON" 7 (fst new_manager) (snd new_manager)
      = Ok (h2, self2) ∧
    sources self2 = [{| name := "user.JSON"; content := 2; priority := 7;
                        source_type := "file"; metadata := 3 |}] ∧
    h2 !! 3 = Some [("path", VStr "/work/user.JSON")] ∧
    get_context 1 (Some "user.name") VNone h2 self2
    = Some (h3, self3, Ok (VStr "Test")).
Proof.
  apply (load_from_file_then_get_context
           (λ l, if l =? 1 then 1 else 0) 1 1 fs_user "user.JSON" 7
           (fst new_manager) (snd new_manager)
           (json_load fs_user "user.JSON") heap_with_literal 2
           "user.name" VNone).
  - reflexivity.
  - reflexivity.
  - reflexivity.
  - apply store_okb_sound. reflexivity.
  - simpl. lia.
  - reflexivity.
  - reflexivity.
  - reflexivity.
  - lia.
Defined.

(** ** Reading a well-formed store *)

(** X21.  On every well-formed store (as the calls build it from literal
    contents, [run_ok]), with every dotted path and every default,
    [get_context] returns and does not raise; the value is the one the path
    denotes in the merged mapping, and it is the default as soon as a step
    meets a value that is not a mapping (a list, a string, a number, ...)
    or a key that is absent. *)
Theorem get_context_never_raises lvl D fuel (h : heap) self key default :
  store_ok lvl D h self → D < fuel →
  ∃ h' self' v,
    get_context fuel (Some key) default h self = Some (h', self', Ok v) ∧
    v = match resolve h' (split_dot key) (VDict (context self')) with
        | Some w => w
        | None => default
        end.
Proof. apply get_context_key_spec. Qed.

(** A path through a list: [get_context("tags.0", "fallback")] is the
    default. *)
Lemma get_context_never_raises_witness :
  ∃ h' self' v,
    get_context 2 (Some "tags.0") (VStr "fallback")
                (fst user_store) (snd user_store)
      = Some (h', self', Ok v) ∧
    v = VStr "fallback".
Proof.
  destruct (get_context_never_raises
              (λ l, if l =? 1 then 1 else 0) 1 2
              (fst user_store) (snd user_store) "tags.0" (VStr "fallback"))
    as (h' & self' & v & Hrun & Hv).
  - apply store_okb_sound. reflexivity.
  - lia.
  - exists h', self', v. split; [exact Hrun|].
    vm_compute in Hrun. injection Hrun as _ _ <-. reflexivity.
Defined.

(** X22.  Whatever calls have been made on a new manager ([add_source]
    with literals as contents, [merge_contexts], [get_context],
    [remove_source]), with a recursion budget above the nesting depth of
    the literals, the calls end and a [get_context] that follows returns a
    value and does not raise, whatever the key and the default. *)
Theorem get_never_raises_after_calls D fuel (cs : list call) key default :
  script_depth cs ≤ D → D < fuel →
  ∃ s, run fuel cs new_manager = Some s ∧
       ∃ s' v, get fuel key default s = Some (s', Ok v).
Proof.
  intros Hdepth Hfuel.
  destruct (run_ok D fuel cs Hdepth Hfuel new_manager) as (s & Hrun & Hs).
  { apply new_manager_ok. }
  exists s. split; [done|]. destruct s as [h self].
  destruct Hs as [lvl Hok]. simpl in Hok. unfold get.
  destruct key as [key|].
  - destruct (get_context_key_spec lvl D fuel h self key default Hok Hfuel)
      as (h' & self' & v & -> & _).
    by eexists _, _.
  - unfold get_context. destruct (context_is_empty h self).
    + destruct (merge_contexts_spec lvl D fuel h self Hok Hfuel)
        as (h' & d' & -> & _).
      by eexists _, _.
    + by eexists _, _.
Qed.

Lemma get_never_raises_after_calls_witness :
  ∃ s, run 3 [CallAddSource "hi" (TDict [("app", TDict [("name", TStr "Y")])])
                            10;
              CallAddSource "lo" (TDict [("app", TDict [("name", TStr "X")])])
                            0;
              CallGetContext (Some "app.name") VNone;
              CallAddSource "tags" (TDict [("tags", TList [TInt 1])]) 5;
              CallMergeContexts] new_manager = Some s ∧
       ∃ s' v, get 3 (Some "tags.0") (VStr "fallback") s = Some (s', Ok v).
Proof.
  apply (get_never_raises_after_calls 2 3); [|lia].
  vm_compute. lia.
Defined.

(** * Agents: src/core/agent.py *)

Lemma tools_get_set_eq n t ts :
  Agent.tools_get n (Agent.tools_set n t ts) = Some t.
Proof.
  induction ts as [|[n' t'] ts IH]; simpl.
  - by rewrite String.eqb_refl.
  - destruct (String.eqb_spec n n') as [->|Hne]; simpl.
    + by rewrite String.eqb_refl.
    + destruct (String.eqb_spec n n'); [done|auto].
Qed.

Lemma tools_get_set_ne n k t ts :
  k ≠ n → Agent.tools_get k (Agent.tools_set n t ts) = Agent.tools_get k ts.
Proof.
  intros Hne. induction ts as [|[n' t'] ts IH]; simpl.
  - destruct (String.eqb_spec k n); [done|done].
  - destruct (String.eqb_spec n n') as [->|Hne']; simpl.
    + destruct (String.eqb_spec k n'); [done|done].
    + destruct (String.eqb_spec k n'); [done|auto].
Qed.

Lemma tools_get_del_eq n ts : Agent.tools_get n (Agent.tools_del n ts) = None.
Proof.
  induction ts as [|[n' t'] ts IH]; simpl; [done|].
  destruct (String.eqb_spec n n') as [->|Hne]; simpl; [done|].
  destruct (String.eqb_spec n n'); [done|auto].
Qed.

Lemma tools_get_del_ne n k ts :
  k ≠ n → Agent.tools_get k (Agent.tools_del n ts) = Agent.tools_get k ts.
Proof.
  intros Hne. induction ts as [|[n' t'] ts IH]; simpl; [done|].
  destruct (String.eqb_spec n n') as [->|Hne']; simpl.
  - destruct (String.eqb_spec k n'); [done|auto].
  - destruct (String.eqb_spec k n'); [done|auto].
Qed.

(** X12.  What [add_tool] registers can be fetched: after a successful
    [add_tool], [get_tool] finds a tool under the registered name and every
    other name is as before.  A [Tool] instance is registered as it is under
    its own name, and the [name], [description] and schema arguments are
    ignored; a callable is registered under [name], or under its
    [__name__] when [name] is missing or empty, with [description], or its
    docstring, or "" as description. *)
Theorem agent_add_tool_then_get_tool tool n d isch osch self self' :
  Agent.add_tool tool n d isch osch self = Ok self' →
  ∃ key t,
    Agent.get_tool key self' = Some t ∧ Agent.name t = key ∧
    (∀ k, k ≠ key → Agent.get_tool k self' = Agent.get_tool k self) ∧
    Agent.conversation self' = Agent.conversation self ∧
    match tool with
    | Agent.ATool t0 => t = t0
    | Agent.ACallable f =>
        key = (if Agent.falsy n then Agent.__name__ f else default "" n) ∧
        Agent.description t
        = (if Agent.falsy d
           then (if Agent.falsy (Agent.__doc__ f) then ""
                 else default "" (Agent.__doc__ f))
           else default "" d) ∧
        Agent.func t = f ∧
        Agent.input_schema t = isch ∧ Agent.output_schema t = osch
    | Agent.AOther => False
    end.
Proof.
  unfold Agent.add_tool, Agent.get_tool.
  destruct tool as [t0|f|]; [| |done]; intros [= <-]; simpl.
  - exists (Agent.name t0), t0. rewrite tools_get_set_eq.
    repeat split; try done. intros k Hne. by apply tools_get_set_ne.
  - eexists _, _. rewrite tools_get_set_eq. split; [done|]. simpl.
    repeat split; try done. intros k Hne. by apply tools_get_set_ne.
Qed.

Lemma agent_add_tool_then_get_tool_witness :
  ∃ key t,
    Agent.get_tool key Agent.test_agent_with_tool = Some t ∧
    Agent.name t = key ∧
    (∀ k, k ≠ key → Agent.get_tool k Agent.test_agent_with_tool
                    = Agent.get_tool k Agent.test_agent) ∧
    Agent.conversation Agent.test_agent_with_tool
    = Agent.conversation Agent.test_agent ∧
    (key = "test_tool" ∧ Agent.description t = "Test tool." ∧
     Agent.func t = Agent.test_tool_fn ∧
     Agent.input_schema t = None ∧ Agent.output_schema t = None).
Proof.
  apply (agent_add_tool_then_get_tool
           (Agent.ACallable Agent.test_tool_fn) None None None None
           Agent.test_agent).
  reflexivity.
Defined.

(** X13.  [remove_tool] answers [True] exactly when the name was
    registered; afterwards [get_tool] finds nothing under that name, every
    other tool is as before and the conversation and the context are
    untouched; when it answers [False] the agent is unchanged. *)
Theorem agent_remove_tool n self :
  (Agent.remove_tool n self).2
  = match Agent.get_tool n self with Some _ => true | None => false end ∧
  Agent.get_tool n (Agent.remove_tool n self).1 = None ∧
  (∀ k, k ≠ n → Agent.get_tool k (Agent.remove_tool n self).1
                = Agent.get_tool k self) ∧
  Agent.conversation (Agent.remove_tool n self).1 = Agent.conversation self ∧
  Agent.context (Agent.remove_tool n self).1 = Agent.context self ∧
  ((Agent.remove_tool n self).2 = false → (Agent.remove_tool n self).1 = self).
Proof.
  unfold Agent.remove_tool, Agent.get_tool.
  destruct (Agent.tools_get n (Agent.tools self)) as [t|] eqn:Hget; simpl.
  - split; [done|]. split; [apply tools_get_del_eq|].
    split; [|done]. intros k Hne. by apply tools_get_del_ne.
  - done.
Qed.





Lemma process_all_cons i inputs a :
  Agent.process_all (i :: inputs) a
  = ((Agent.process_all inputs (Agent.process i a).1).1,
     (Agent.process i a).2
     :: (Agent.process_all inputs (Agent.process i a).1).2).
Proof.
  simpl. by destruct (Agent.process_all inputs _).
Qed.

(** X15.  [process] only appends: processing inputs one after the other
    leaves the earlier conversation in place and adds, for each input in
    order, the user message and the assistant message "<agent name>
    received: <input>", which is also the answer; the tools and the context
    are untouched.  After [reset] the conversation is exactly these
    messages, two for each input. *)
Theorem agent_process_all inputs self :
  Agent.conversation (Agent.process_all inputs self).1
  = Agent.conversation self
    ++ flat_map (Agent.exchange (Agent.agent_name self)) inputs ∧
  (Agent.process_all inputs self).2
  = map (λ i, Agent.agent_name self +:+ " received: " +:+ i) inputs ∧
  Agent.tools (Agent.process_all inputs self).1 = Agent.tools self ∧
  Agent.context (Agent.process_all inputs self).1 = Agent.context self ∧
  Agent.agent_name (Agent.process_all inputs self).1 = Agent.agent_name self ∧
  length (Agent.conversation
            (Agent.process_all inputs (Agent.reset self)).1)
  = 2 * length inputs.
Proof.
  assert (Hmain : ∀ a,
    Agent.conversation (Agent.process_all inputs a).1
    = Agent.conversation a
      ++ flat_map (Agent.exchange (Agent.agent_name a)) inputs ∧
    (Agent.process_all inputs a).2
    = map (λ i, Agent.agent_name a +:+ " received: " +:+ i) inputs ∧
    Agent.tools (Agent.process_all inputs a).1 = Agent.tools a ∧
    Agent.context (Agent.process_all inputs a).1 = Agent.context a ∧
    Agent.agent_name (Agent.process_all inputs a).1 = Agent.agent_name a).
  { induction inputs as [|i inputs IH]; intros a.
    - simpl. by rewrite app_nil_r.
    - rewrite process_all_cons. cbn [fst snd].
      destruct (IH (Agent.process i a).1) as (-> & -> & -> & -> & ->).
      simpl. by rewrite <- !app_assoc. }
  destruct (Hmain self) as (H1 & H2 & H3 & H4 & H5).
  do 5 (split; [done|]).
  destruct (Hmain (Agent.reset self)) as (-> & _). simpl.
  clear. induction inputs as [|i inputs IH]; simpl; [done|]. rewrite IH. lia.
Qed.

(** X16.  [BaseAgent.get_context] does not split its key: after
    [set_context] of a flat dictionary that has a key with a dot in it,
    [get_context] with that key returns the value bound to it, and with no
    key it returns the dictionary given to [set_context] itself.  On the
    same dictionary as cached view, [ContextManager.get_context] with that
    key returns the default. *)
Theorem agent_get_context_is_flat fuel (h : heap) agent mgr c d key v default :
  h !! c = Some d → d ≠ [] →
  (∀ k w, dict_get k d = Some w → isinstance_dict w = false) →
  dict_get key d = Some v → has_dot key = true →
  context mgr = c →
  Agent.get_context (Some key) default h (Agent.set_context c agent) = v ∧
  Agent.get_context None default h (Agent.set_context c agent) = VDict c ∧
  get_context fuel (Some key) default h mgr = Some (h, mgr, Ok default).
Proof.
  intros Hc Hne Hflat Hget Hdot Hmgr. unfold Agent.get_context. simpl.
  rewrite Hc, Hget. split; [done|]. split; [done|].
  apply (get_context_flat_view_dotted_key fuel h mgr d); [|done..].
  by rewrite Hmgr.
Qed.

Lemma agent_get_context_is_flat_witness :
  Agent.get_context (Some "a.b") (VStr "fallback") (fst dotted_key_cached)
    (Agent.set_context 3 Agent.test_agent) = VInt 1 ∧
  Agent.get_context None (VStr "fallback") (fst dotted_key_cached)
    (Agent.set_context 3 Agent.test_agent) = VDict 3 ∧
  get_context 1 (Some "a.b") (VStr "fallback")
    (fst dotted_key_cached) (snd dotted_key_cached)
  = Some (fst dotted_key_cached, snd dotted_key_cached, Ok (VStr "fallback")).
Proof.
  apply (agent_get_context_is_flat 1 (fst dotted_key_cached)
           Agent.test_agent (snd dotted_key_cached) 3
           [("a.b", VInt 1); ("c", VInt 2)] "a.b" (VInt 1) (VStr "fallback")).
  - reflexivity.
  - discriminate.
  - intros k w. simpl.
    destruct (String.eqb k "a.b"); [by intros [= <-]|].
    destruct (String.eqb k "c"); [by intros [= <-]|done].
  - reflexivity.
  - reflexivity.
  - reflexivity.
Defined.

(** * Tools: src/core/tools.py *)

(** A model class raises validation errors only. *)
Lemma instantiate_raises_validation cls kw e :
  Tools.instantiate cls kw = Tools.Raised e →
  ∃ m, e = Tools.ValidationError m.
Proof.
  revert e. induction cls as [|f cls IH]; intros e; simpl; [done|].
  destruct (tree_get (Tools.fname f) kw) as [given|].
  - destruct (Tools.accepts f given) as [v|].
    + destruct (Tools.instantiate cls kw) as [inst|e']; [done|].
      intros [= <-]. by apply IH.
    + intros [= <-]. by eexists.
  - destruct (Tools.fdefault f) as [v|].
    + destruct (Tools.instantiate cls kw) as [inst|e']; [done|].
      intros [= <-]. by apply IH.
    + intros [= <-]. by eexists.
Qed.

(** A required field that is not given makes the call of the class fail. *)
Lemma instantiate_required_missing cls kw f :
  f ∈ cls → Tools.fdefault f = None → tree_get (Tools.fname f) kw = None →
  ∃ m, Tools.instantiate cls kw = Tools.Raised (Tools.ValidationError m).
Proof.
  intros Hin Hreq Hmiss.
  induction cls as [|g cls IH]; [by apply elem_of_nil in Hin|].
  apply elem_of_cons in Hin as [<-|Hin].
  - simpl. rewrite Hmiss, Hreq. by eexists.
  - destruct (IH Hin) as (m & Hm). simpl. rewrite Hm.
    destruct (tree_get (Tools.fname g) kw) as [given|].
    + destruct (Tools.accepts g given); by eexists.
    + destruct (Tools.fdefault g); by eexists.
Qed.

(** An instance has the fields of its class, in their order. *)
Lemma instantiate_fields cls kw inst :
  Tools.instantiate cls kw = Tools.Returned inst →
  inst.*1 = Tools.fname <$> cls.
Proof.
  revert inst. induction cls as [|f cls IH]; intros inst; simpl.
  - by intros [= <-].
  - destruct (tree_get (Tools.fname f) kw) as [given|].
    + destruct (Tools.accepts f given) as [v|]; [|done].
      destruct (Tools.instantiate cls kw) as [i|]; [|done].
      intros [= <-]. simpl. f_equal. by apply IH.
    + destruct (Tools.fdefault f) as [v|]; [|done].
      destruct (Tools.instantiate cls kw) as [i|]; [|done].
      intros [= <-]. simpl. f_equal. by apply IH.
Qed.

Lemma tree_get_not_key k (kw : list (string * tree)) :
  k ∉ kw.*1 → tree_get k kw = None.
Proof.
  induction kw as [|[k' t] kw IH]; simpl; [done|].
  intros Hk. destruct (String.eqb_spec k k') as [->|Hne].
  - exfalso. apply Hk. by left.
  - apply IH. intros Hin. apply Hk. by right.
Qed.

(** With an output class that has a required field besides [success],
    [message] and [data], neither the [try] block of [execute] nor its
    [except] clause can build an output. *)
Lemma execute_required_output_field (self : Tools.BaseTool) kw f :
  f ∈ Tools.output_schema self → Tools.fdefault f = None →
  Tools.fname f ∉ ["success"; "message"; "data"] →
  ∃ m, Tools.execute self kw = Tools.Raised (Tools.ValidationError m).
Proof.
  intros Hin Hreq Hname.
  assert (Hfail : ∀ e, ∃ m,
             Tools.instantiate (Tools.output_schema self)
               (Tools.failure_kwargs e)
             = Tools.Raised (Tools.ValidationError m)).
  { intros e. apply (instantiate_required_missing _ _ f); [done..|].
    by apply tree_get_not_key. }
  assert (Hsucc : ∀ r, ∃ e, Tools.validate_output self
                               (Tools.success_kwargs r) = Tools.Raised e).
  { intros r. unfold Tools.validate_output.
    destruct (instantiate_required_missing (Tools.output_schema self)
                (Tools.success_kwargs r) f) as (m & ->); [done..| |by eexists].
    by apply tree_get_not_key. }
  unfold Tools.execute.
  destruct (Tools.validate_input self kw) as [i|e]; [|apply Hfail].
  destruct (Tools._execute self i) as [r|e]; [|apply Hfail].
  destruct (Hsucc r) as (e & ->). apply Hfail.
Qed.

(** X17.  [BaseTool.execute] turns every failure into an output: if the
    output class of the tool can be built from the three arguments of the
    [except] clause ([success], [message], [data]), then [execute] raises
    nothing, whatever the arguments and whatever [_execute] does.  Its
    result has the fields of the output class; when the input is refused,
    or [_execute] raises, it is the output built from that exception, and
    [_execute] decides the result only when the input was accepted. *)
Theorem tool_execute_never_raises (self : Tools.BaseTool) kw :
  (∀ e, ∃ out, Tools.instantiate (Tools.output_schema self)
                 (Tools.failure_kwargs e) = Tools.Returned out) →
  ∃ out,
    Tools.execute self kw = Tools.Returned out ∧
    out.*1 = Tools.fname <$> Tools.output_schema self ∧
    (∀ e, Tools.instantiate (Tools.input_schema self) kw = Tools.Raised e →
          Tools.instantiate (Tools.output_schema self)
            (Tools.failure_kwargs
               (Tools.ToolError ("Invalid input: " +:+ Tools.exn_str e)))
          = Tools.Returned out) ∧
    (∀ i e, Tools.instantiate (Tools.input_schema self) kw = Tools.Returned i →
            Tools._execute self i = Tools.Raised e →
            Tools.instantiate (Tools.output_schema self)
              (Tools.failure_kwargs e) = Tools.Returned out) ∧
    (∀ i r, Tools.instantiate (Tools.input_schema self) kw = Tools.Returned i →
            Tools._execute self i = Tools.Returned r →
            Tools.instantiate (Tools.output_schema self)
              (Tools.success_kwargs r) = Tools.Returned out ∨
            ∃ e, Tools.instantiate (Tools.output_schema self)
                   (Tools.success_kwargs r) = Tools.Raised e ∧
                 Tools.instantiate (Tools.output_schema self)
                   (Tools.failure_kwargs
                      (Tools.ToolError
                         ("Invalid output: " +:+ Tools.exn_str e)))
                 = Tools.Returned out).
Proof.
  intros Hfail. unfold Tools.execute, Tools.validate_input,
    Tools.validate_output.
  destruct (Tools.instantiate (Tools.input_schema self) kw) as [i|e] eqn:Hi.
  - destruct (Tools._execute self i) as [r|e] eqn:Hr.
    + destruct (Tools.instantiate (Tools.output_schema self)
                  (Tools.success_kwargs r)) as [o|e] eqn:Ho.
      * exists o. split; [done|]. split; [by eapply instantiate_fields|].
        split; [done|]. split; [by intros i' e' [= <-]; rewrite Hr|].
        intros i' r' [= <-]. rewrite Hr. intros [= <-]. by left.
      * destruct (Hfail (Tools.ToolError
                           ("Invalid output: " +:+ Tools.exn_str e)))
          as (o & Hout).
        exists o. split; [done|]. split; [by eapply instantiate_fields|].
        split; [done|]. split; [by intros i' e' [= <-]; rewrite Hr|].
        intros i' r' [= <-]. rewrite Hr. intros [= <-]. right.
        exists e. by rewrite Ho.
    + destruct (Hfail e) as (o & Hout).
      exists o. split; [done|]. split; [by eapply instantiate_fields|].
      split; [done|]. split.
      * intros i' e' [= <-]. rewrite Hr. by intros [= <-].
      * intros i' r' [= <-]. by rewrite Hr.
  - destruct (Hfail (Tools.ToolError ("Invalid input: " +:+ Tools.exn_str e)))
      as (o & Hout).
    exists o. split; [done|]. split; [by eapply instantiate_fields|].
    split; [by intros e' [= <-]|]. split; by intros i'.
Qed.

Lemma tool_execute_never_raises_witness :
  ∃ out,
    Tools.execute Tools.base_tool [("verbose", TBool true)]
    = Tools.Returned out ∧
    tree_get "success" out = Some (TBool true) ∧
    tree_get "data" out = Some (TDict []).
Proof.
  destruct (tool_execute_never_raises Tools.base_tool
              [("verbose", TBool true)])
    as (out & Hrun & _ & _ & _ & Hok).
  - intros e. eexists. reflexivity.
  - exists out. split; [exact Hrun|].
    destruct (Hok [] (TDict []) eq_refl eq_refl) as [Hout|(e & He & _)].
    + vm_compute in Hout. injection Hout as <-. split; reflexivity.
    + vm_compute in He. discriminate He.
Defined.

(** X18.  An output class with one more required field breaks [execute]:
    if the output class of a tool has a required field other than
    [success], [message] and [data], then [execute] raises a validation
    error on every input, whatever [_execute] does; it never returns an
    output, not even a failure output. *)
Theorem tool_execute_required_output_field_raises
    (self : Tools.BaseTool) kw f :
  f ∈ Tools.output_schema self → Tools.fdefault f = None →
  Tools.fname f ∉ ["success"; "message"; "data"] →
  ∃ m, Tools.execute self kw = Tools.Raised (Tools.ValidationError m).
Proof. apply execute_required_output_field. Qed.

Lemma tool_execute_required_output_field_raises_witness :
  ∃ m, Tools.execute (Tools.FileReadTool Tools.int_only Tools.one_file)
         [("file_path", TStr "notes.txt")]
       = Tools.Raised (Tools.ValidationError m).
Proof.
  apply (tool_execute_required_output_field_raises
           (Tools.FileReadTool Tools.int_only Tools.one_file)
           [("file_path", TStr "notes.txt")]
           (Tools.mkField "content" None Tools.accepts_str)).
  - simpl. do 3 right. left.
  - reflexivity.
  - simpl. intros H.
    repeat (apply elem_of_cons in H as [H|H]; [discriminate H|]).
    by apply elem_of_nil in H.
Defined.

(** X19.  [FileReadTool.execute] never returns: whatever the file system
    holds, whatever the arguments and however an [int] field is validated,
    the call raises a validation error, since [FileReadOutput] requires
    [content] and [size], which [execute] passes inside [data] only. *)
Theorem file_read_tool_execute_raises accepts_int (fs : Tools.files) kw :
  ∃ m, Tools.execute (Tools.FileReadTool accepts_int fs) kw
       = Tools.Raised (Tools.ValidationError m).
Proof.
  apply (execute_required_output_field (Tools.FileReadTool accepts_int fs) kw
           (Tools.mkField "content" None Tools.accepts_str)).
  - simpl. do 3 right. left.
  - reflexivity.
  - simpl. intros H.
    repeat (apply elem_of_cons in H as [H|H]; [discriminate H|]).
    by apply elem_of_nil in H.
Qed.

(** What the validation of a field gives is of the declared type. *)
Lemma accepts_bool_result t v :
  Tools.accepts_bool t = Some v → ∃ b, v = TBool b.
Proof.
  destruct t as [|b|z|s|l|d]; unfold Tools.accepts_bool; try done.
  - intros [= <-]. by eexists.
  - destruct z as [|[p|p|]|p]; try done; intros [= <-]; by eexists.
  - destruct (str_in (str_lower s) ["0"; "off"; "f"; "false"; "n"; "no"]);
      [intros [= <-]; by eexists|].
    destruct (str_in (str_lower s) ["1"; "on"; "t"; "true"; "y"; "yes"]);
      [intros [= <-]; by eexists|done].
Qed.

Lemma accepts_str_result t v :
  Tools.accepts_str t = Some v → ∃ s, v = TStr s.
Proof. destruct t; simpl; try done. intros [= <-]. by eexists. Qed.

(** An instance gives each field the accepted value or the default. *)
Lemma instantiate_cons_inv f cls kw i :
  Tools.instantiate (f :: cls) kw = Tools.Returned i →
  ∃ v inst,
    i = (Tools.fname f, v) :: inst ∧
    Tools.instantiate cls kw = Tools.Returned inst ∧
    match tree_get (Tools.fname f) kw with
    | Some given => Tools.accepts f given = Some v
    | None => Tools.fdefault f = Some v
    end.
Proof.
  cbn [Tools.instantiate].
  destruct (tree_get (Tools.fname f) kw) as [given|].
  - destruct (Tools.accepts f given) as [v|]; [|done].
    destruct (Tools.instantiate cls kw) as [inst|]; [|done].
    intros [= <-]. by eexists _, _.
  - destruct (Tools.fdefault f) as [v|]; [|done].
    destruct (Tools.instantiate cls kw) as [inst|]; [|done].
    intros [= <-]. by eexists _, _.
Qed.

(** The instances of [FileWriteInput]. *)
Lemma file_write_input_instance kw i :
  Tools.instantiate Tools.FileWriteInput kw = Tools.Returned i →
  ∃ p text enc app,
    i = [("file_path", TStr p); ("content", TStr text);
         ("encoding", TStr enc); ("append", TBool app)].
Proof.
  unfold Tools.FileWriteInput, Tools.ToolInput. cbn [app].
  intros (v1 & i1 & -> & Hi1 & H1)%instantiate_cons_inv.
  apply instantiate_cons_inv in Hi1 as (v2 & i2 & -> & Hi2 & H2).
  apply instantiate_cons_inv in Hi2 as (v3 & i3 & -> & Hi3 & H3).
  apply instantiate_cons_inv in Hi3 as (v4 & i4 & -> & Hi4 & H4).
  injection Hi4 as <-. cbn [Tools.fname Tools.accepts Tools.fdefault] in *.
  assert (∃ p, v1 = TStr p) as (p & ->).
  { destruct (tree_get "file_path" kw); [|done].
    by eapply accepts_str_result. }
  assert (∃ text, v2 = TStr text) as (text & ->).
  { destruct (tree_get "content" kw); [|done].
    by eapply accepts_str_result. }
  assert (∃ enc, v3 = TStr enc) as (enc & ->).
  { destruct (tree_get "encoding" kw).
    - by eapply accepts_str_result.
    - injection H3 as <-. by eexists. }
  assert (∃ b, v4 = TBool b) as (b & ->).
  { destruct (tree_get "append" kw).
    - by eapply accepts_bool_result.
    - injection H4 as <-. by eexists. }
  by eexists _, _, _, _.
Qed.

(** X20.  [FileWriteTool.execute] always returns an output, whatever the
    arguments and whatever the file system does.  When the input is
    accepted, the text is written in mode [a] if [append] is set and [w]
    otherwise; if the write succeeds the output has [success] true, the
    message of [execute] and the report of the write inside [data]; if the
    write raises, the output has [success] false and carries the text of
    that exception after two prefixes.  When the input is refused the
    output has [success] false and reports the invalid input. *)
Theorem file_write_tool_execute (fs : Tools.files) kw :
  ∃ b msg data,
    Tools.execute (Tools.FileWriteTool fs) kw
    = Tools.Returned [("success", TBool b); ("message", TStr msg);
                      ("data", data)] ∧
    (∀ p text enc app,
       Tools.instantiate Tools.FileWriteInput kw
       = Tools.Returned [("file_path", TStr p); ("content", TStr text);
                         ("encoding", TStr enc); ("append", TBool app)] →
       match Tools.write_text fs p (if app then "a" else "w") enc text with
       | Tools.Returned _ =>
           b = true ∧ msg = "Operation completed successfully" ∧
           data = TDict [("success", TBool true);
                         ("message",
                          TStr ("Successfully wrote to "
                                +:+ Tools.path_str fs p))]
       | Tools.Raised e =>
           b = false ∧
           msg = "Tool execution failed: Failed to write to file: "
                 +:+ Tools.exn_str e ∧
           data = TDict [("error",
                          TStr ("Failed to write to file: "
                                +:+ Tools.exn_str e))]
       end) ∧
    (∀ e, Tools.instantiate Tools.FileWriteInput kw = Tools.Raised e →
          b = false ∧
          msg = "Tool execution failed: Invalid input: " +:+ Tools.exn_str e).
Proof.
  unfold Tools.execute, Tools.validate_input, Tools.validate_output.
  cbn [Tools.input_schema Tools.output_schema Tools.FileWriteTool].
  destruct (Tools.instantiate Tools.FileWriteInput kw) as [i|e] eqn:Hi.
  - destruct (file_write_input_instance kw i Hi)
      as (p & text & enc & app & ->).
    cbn [Tools._execute Tools.FileWriteTool].
    change (tree_get "file_path" _) with (Some (TStr p)).
    change (tree_get "content" _) with (Some (TStr text)).
    change (tree_get "encoding" _) with (Some (TStr enc)).
    change (tree_get "append" _) with (Some (TBool app)).
    cbv iota beta.
    destruct (Tools.write_text fs p (if app then "a" else "w") enc text)
      as [u|e] eqn:Hw.
    + eexists _, _, _. split; [reflexivity|]. split; [|done].
      intros p' text' enc' app' [= <- <- <- <-]. by rewrite Hw.
    + eexists _, _, _. split; [reflexivity|]. split; [|done].
      intros p' text' enc' app' [= <- <- <- <-]. by rewrite Hw.
  - eexists _, _, _. split; [reflexivity|]. split; [done|].
    by intros e' [= <-].
Qed.
